(** * predictions.py: power-law fitting and interactive prediction

    A shallow embedding of [src/predictions.py] and the properties of its
    regression core ([power_law_fit]), of the coefficient table built in
    [main], and of the prediction closure [calc] with the loop around it.

    Numbers.  The program computes with IEEE doubles (numpy arrays,
    [math.pow]).  The embedding uses the real numbers of the Standard
    Library: a finite double is the real it denotes and every operation
    is exact, which is the reading under which "within floating-point
    tolerance" and "modulo rounding" become equalities.  What is kept of
    the format is its range, wherever the range decides what the program
    does:
    - [math.pow] raises OverflowError when the power is too large for a
      double, and returns 0.0 when it is too small ([math_pow]);
    - [np.exp] returns 0.0 when the exponential is too small ([np.exp]);
    - [np.polyfit] decides the rank of its design matrix against
      [rcond = n·eps] ([np.polyfit1]).
    Infinities, NaN and signed zeros are not values of the model: the
    inputs are finite, and where a finite computation overflows to an
    infinity without raising ([np.exp] of a large intercept, the product
    in [calc]) the model keeps the real number.

    Exceptions.  Python exceptions are values of [exn]; a computation that
    can raise returns a [result].  Printing is an explicit output log that
    survives an exception, as the terminal does.

    Input.  [read_csv] is the input boundary: [main] is modelled on the
    table [data] it returns (column name to array) and on the list of lines
    typed at the prompt. *)

From Stdlib Require Import Reals Lra Lia Ascii.
From stdpp Require Import gmap strings list.

(** ** Strings

    Column names are ASCII in the program ([targets] below), and [lower]
    is [str.lower] on ASCII text; [contains] is the [in] operator on
    strings. *)

Definition lower_ascii (c : ascii) : ascii :=
  let n := nat_of_ascii c in
  if (65 <=? n)%nat && (n <=? 90)%nat then ascii_of_nat (n + 32) else c.

Fixpoint lower (s : string) : string :=
  match s with
  | EmptyString => EmptyString
  | String c s' => String (lower_ascii c) (lower s')
  end.

Fixpoint starts_with (p s : string) : bool :=
  match p, s with
  | EmptyString, _ => true
  | String a p', String b s' => bool_decide (a = b) && starts_with p' s'
  | String _ _, EmptyString => false
  end.

Fixpoint contains (needle hay : string) : bool :=
  starts_with needle hay ||
  match hay with
  | EmptyString => false
  | String _ hay' => contains needle hay'
  end.

Open Scope R_scope.

(** ** Exceptions and results *)

Inductive exn : Type :=
  | KeyError (key : string)   (* subscript of a dict with an absent key *)
  | TypeError                 (* numpy: polyfit on an empty vector *)
  | ValueError                (* math.pow domain error; broadcast failure *)
  | OverflowError             (* math.pow range error *)
  | IndexError                (* boolean index of the wrong length *)
  | LinAlgError               (* numpy: least squares on a non-finite matrix *)
  | EOFError.                 (* input() at end of input *)

Inductive result (A : Type) : Type :=
  | Ok (a : A)
  | Raise (e : exn).
Arguments Ok {A} a.
Arguments Raise {A} e.

Definition rbind {A B} (r : result A) (k : A → result B) : result B :=
  match r with
  | Ok a => k a
  | Raise e => Raise e
  end.

#[global] Instance result_bind : MBind result := λ A B k r, rbind r k.
#[global] Instance result_ret : MRet result := λ A a, Ok a.

Definition is_Ok {A} (r : result A) : Prop := ∃ a, r = Ok a.

#[global] Instance Rlt_rel_dec : RelDecision Rlt := Rlt_dec.
#[global] Instance Rle_rel_dec : RelDecision Rle := Rle_dec.
#[global] Instance Req_rel_dec : EqDecision R := Req_dec_T.

(** ** The range of the doubles

    [float_eps] is [np.finfo(float).eps], the distance from 1 to the next
    double.  [float_least] and [float_max] are the least and the largest
    positive double; [float_tiny] is [np.finfo(float).tiny], the least
    positive normal double, below which the doubles are evenly spaced
    and rounding loses relative precision.  Rounding to nearest sends a
    real to an infinity from [round_to_inf] on (half a unit in the last
    place above [float_max]) and a positive real to zero up to
    [round_to_zero] (half of [float_least], a tie that goes to the even
    neighbour, zero). *)

Definition float_eps : R := / IZR (2 ^ 52).
Definition float_least : R := / IZR (2 ^ 1074).
Definition float_tiny : R := / IZR (2 ^ 1022).
Definition float_max : R := IZR (2 ^ 1024 - 2 ^ 971).
Definition round_to_inf : R := IZR (2 ^ 1024 - 2 ^ 970).
Definition round_to_zero : R := / IZR (2 ^ 1075).

(** The range of the positive doubles, and of the normal ones among
    them. *)
Definition positive_double (v : R) : Prop := float_least <= v <= float_max.
Definition normal_double (v : R) : Prop := float_tiny <= v <= float_max.

(** ** The numpy operations used by [power_law_fit]

    numpy is a library, not part of this repository; these definitions
    follow its documented behaviour on one-dimensional float arrays. *)

Module np.

(** [x > 0] on an array. *)
Definition gt0 (x : list R) : list bool :=
  map (λ v, bool_decide (0 < v)) x.

(** [m1 & m2]: elementwise, an array of length 1 is broadcast, any other
    pair of different lengths raises. *)
Definition and_ (m1 m2 : list bool) : result (list bool) :=
  if decide (length m1 = length m2) then Ok (zip_with andb m1 m2)
  else if decide (length m1 = 1%nat) then Ok (map (andb (hd false m1)) m2)
  else if decide (length m2 = 1%nat) then Ok (map (λ b, andb b (hd false m2)) m1)
  else Raise ValueError.

(** The elements of [x] at the positions where [mask] is true. *)
Fixpoint select {A} (mask : list bool) (x : list A) : list A :=
  match mask, x with
  | true :: mask', v :: x' => v :: select mask' x'
  | false :: mask', _ :: x' => select mask' x'
  | _, _ => []
  end.

(** [x[mask]]: the mask must be as long as the array, except that numpy
    does not check an empty mask, which selects nothing from an array of
    any length. *)
Definition index {A} (x : list A) (mask : list bool) : result (list A) :=
  if decide (length mask = length x) then Ok (select mask x)
  else if decide (length mask = 0%nat) then Ok []
  else Raise IndexError.

(** [np.log] on an array; it is only applied to positive numbers. *)
Definition log (x : list R) : list R := map ln x.

Definition sum (x : list R) : R := foldr Rplus 0 x.
Definition dot (x y : list R) : R := sum (zip_with Rmult x y).

(** The rank test of [np.polyfit(x, y, 1)].  polyfit divides the two
    columns [x] and [1] of the design matrix by their Euclidean norms
    [√Σx²] and [√n] and hands the scaled matrix to [lstsq] with
    [rcond = n·eps].  The scaled columns are unit vectors with cosine
    [c = Σx / (√Σx²·√n)], so the singular values of the scaled matrix
    are [√(1+|c|)] and [√(1-|c|)]; [lstsq] treats the smaller one as zero
    when it is at most [rcond] times the larger one. *)
Definition full_rank (x : list R) : Prop :=
  let n := INR (length x) in
  let c := sum x / (sqrt (dot x x) * sqrt n) in
  n * float_eps * sqrt (1 + Rabs c) < sqrt (1 - Rabs c).

#[global] Instance full_rank_dec (x : list R) : Decision (full_rank x) :=
  Rlt_dec _ _.

(** [np.polyfit(x, y, 1)], returning [(slope, intercept)].

    polyfit raises TypeError on an empty [x] and on arrays of different
    lengths.  Otherwise [lstsq] solves the scaled system and polyfit
    scales the solution back.
    - All [x] zero: the norm of the first column is zero, the division
      fills the column with NaN and [lstsq] fails to converge.
    - Full rank: the unique least-squares line, given here by the
      normal equations.
    - Rank one (all [x] equal, or equal up to rounding): [lstsq] drops
      the smaller singular value and returns the solution of least norm
      of what is left, [z·(1, ±1)] in the scaled coordinates with the
      sign of [c] and [z = (x·y/√Σx² ± Σy/√n) / (2·(1+|c|))].  numpy
      emits a RankWarning, which is a warning, not an exception.
    [rcond] stays below 1, where [lstsq] would drop both singular
    values, for every array of fewer than 2^52 elements. *)
Definition polyfit1 (x y : list R) : result (R * R) :=
  match x with
  | [] => Raise TypeError
  | _ :: _ =>
    if decide (length x = length y) then
      let n := INR (length x) in
      let sx := sum x in
      let sy := sum y in
      let sxx := dot x x in
      let sxy := dot x y in
      if decide (sxx = 0) then Raise LinAlgError
      else if decide (full_rank x) then
        let gram := n * sxx - sx * sx in
        Ok ((n * sxy - sx * sy) / gram, (sxx * sy - sx * sxy) / gram)
      else
        let c := sx / (sqrt sxx * sqrt n) in
        let sgn := if decide (0 <= sx) then 1 else -1 in
        let z := (sxy / sqrt sxx + sgn * (sy / sqrt n)) / (2 * (1 + Rabs c)) in
        Ok (z / sqrt sxx, sgn * z / sqrt n)
    else Raise TypeError
  end.

(** [np.exp] on a number: 0.0 when the exponential rounds to zero (an
    argument below -745.13).  Above 709.78 [np.exp] returns an infinity,
    for which the model keeps the real exponential. *)
Definition exp (v : R) : R :=
  if decide (Rtrigo_def.exp v <= round_to_zero) then 0 else Rtrigo_def.exp v.

End np.

(** ** [power_law_fit] (predictions.py, lines 34-44) *)

Definition power_law_fit (x y : list R) : result (R * R) :=
  mask ← np.and_ (np.gt0 x) (np.gt0 y);
  xm ← np.index x mask;
  let log_x := np.log xm in
  ym ← np.index y mask;
  let log_y := np.log ym in
  '(b, log_a) ← np.polyfit1 log_x log_y;
  let a := np.exp log_a in
  Ok (a, b).

(** The sample pairs that survive the positivity mask, as two arrays. *)
Definition positive_x (x y : list R) : list R :=
  np.select (zip_with andb (np.gt0 x) (np.gt0 y)) x.
Definition positive_y (x y : list R) : list R :=
  np.select (zip_with andb (np.gt0 x) (np.gt0 y)) y.

(** ** [math.pow] on finite arguments

    [pow(x, 0.0)] is 1 for every [x]; a positive base uses the real power;
    zero to a negative power and a negative base to a non-integer power
    raise ValueError ("math domain error").  A power too large for a
    double raises OverflowError ("math range error"); one too small is
    returned as 0.0 without an error. *)

(** What [math.pow] makes of the real power [v]. *)
Definition math_range (v : R) : result R :=
  if decide (round_to_inf <= Rabs v) then Raise OverflowError
  else if decide (Rabs v <= round_to_zero) then Ok 0
  else Ok v.

Definition math_pow (x y : R) : result R :=
  if decide (y = 0) then Ok 1
  else if decide (0 < x) then math_range (Rpower x y)
  else if decide (x = 0) then
    if decide (0 < y) then Ok 0 else Raise ValueError
  else if decide (IZR (Int_part y) = y) then math_range (powerRZ x (Int_part y))
  else Raise ValueError.

(** ** Output and the program monad

    What the program prints, one constructor per [print] call.  Number
    formatting is not modelled: a printed number is the number.
    [Coefficients] stands for the listing of lines 69-72 as a whole. *)

Inductive output : Type :=
  | MissingColumn (name : string)                  (* line 64 *)
  | Coefficients (coeff : gmap string (R * R))     (* lines 69-72 *)
  | Banner                                         (* line 81 *)
  | BadNumber                                      (* line 89 *)
  | LoadHeader (x_val : R)                         (* line 92 *)
  | Prediction (key : string) (y_val : R) (suffix : string)  (* line 105 *)
  | Finished.                                      (* line 107 *)

(** A run prints some lines and then returns or raises. *)
Record io (A : Type) : Type := IO { printed : list output; outcome : result A }.
Arguments IO {A} printed outcome.
Arguments printed {A} _.
Arguments outcome {A} _.

#[global] Instance io_ret : MRet io := λ A a, IO [] (Ok a).
#[global] Instance io_bind : MBind io := λ A B k m,
  match outcome m with
  | Ok a => IO (printed m ++ printed (k a)) (outcome (k a))
  | Raise e => IO (printed m) (Raise e)
  end.

Definition print (o : output) : io unit := IO [o] (Ok ()).
Definition lift {A} (r : result A) : io A := IO [] r.

(** [d[k]] on a dict. *)
Definition subscript {V} (d : gmap string V) (k : string) : result V :=
  match d !! k with
  | Some v => Ok v
  | None => Raise (KeyError k)
  end.

(** ** [main]: building the coefficient table (lines 55-66) *)

Definition independent : string := "log generation".
Definition targets : list string := ["RX"; "TX"; "Read"; "Write"; "CPU load"].

(** The [for name in targets] loop of lines 62-66; [coeff] is the dict
    being filled. *)
Fixpoint build_loop (data : gmap string (list R)) (x : list R)
    (names : list string) (coeff : gmap string (R * R))
    : io (gmap string (R * R)) :=
  match names with
  | [] => mret coeff
  | name :: rest =>
    match data !! name with
    | None =>
      print (MissingColumn name);;
      build_loop data x rest coeff
    | Some y =>
      r ← lift (power_law_fit x y);
      build_loop data x rest (<[lower name := r]> coeff)
    end
  end.

(** Lines 55-66 for a given list of target names. *)
Definition build (data : gmap string (list R)) (names : list string)
    : io (gmap string (R * R)) :=
  x ← lift (subscript data independent);
  build_loop data x names ∅.

(** ** [calc] and the prediction loop (lines 77-105) *)

Definition calc (coeff : gmap string (R * R)) (y_name : string) (x_val : R)
    : result R :=
  '(a, b) ← subscript coeff y_name;
  p ← math_pow x_val b;
  Ok (a * p).

Definition suffix_of (key : string) : string :=
  if contains "cpu" key then " CPU"
  else if contains "read" key || contains "write" key
          || contains "rx" key || contains "tx" key then " MB/s"
  else "".

(** The [for name in targets] loop of lines 93-105 for one load value. *)
Fixpoint predict_loop (coeff : gmap string (R * R)) (names : list string)
    (x_val : R) : io unit :=
  match names with
  | [] => mret ()
  | name :: rest =>
    let key := lower name in
    match coeff !! key with
    | None => predict_loop coeff rest x_val
    | Some _ =>
      y_val ← lift (calc coeff key x_val);
      print (Prediction (lower name) y_val (suffix_of key));;
      predict_loop coeff rest x_val
    end
  end.

(** One line typed at the prompt, classified by what lines 84-90 do with
    it: the empty string, a text [float] rejects, or a number. *)
Inductive line : Type :=
  | Blank
  | Malformed
  | Number (x_val : R).

(** The [while True] loop of lines 82-105 over the lines typed; running
    out of input makes [input] raise EOFError. *)
Fixpoint serve (coeff : gmap string (R * R)) (names : list string)
    (inputs : list line) : io unit :=
  match inputs with
  | [] => lift (Raise EOFError)
  | Blank :: _ => mret ()
  | Malformed :: rest =>
    print BadNumber;;
    serve coeff names rest
  | Number x_val :: rest =>
    print (LoadHeader x_val);;
    predict_loop coeff names x_val;;
    serve coeff names rest
  end.

(** The body of [main] for a given list of target names, on the table
    [data] that [read_csv] returned and the lines typed at the prompt. *)
Definition main_with (names : list string) (data : gmap string (list R))
    (inputs : list line) : io unit :=
  coeff ← build data names;
  print (Coefficients coeff);;
  print Banner;;
  serve coeff names inputs;;
  print Finished.

Definition main (data : gmap string (list R)) (inputs : list line) : io unit :=
  main_with targets data inputs.

(** The line line 105 prints for a (key, value) pair. *)
Definition prediction_line (kv : string * R) : output :=
  Prediction kv.1 kv.2 (suffix_of kv.1).

(** ** [read_csv] (lines 11-28)

    The file is read through [csv.DictReader], a library: the model starts
    from the records the csv reader yields, each a list of cell texts, the
    first one being the header.  [float] on a text is a parameter: the
    number, or [None] where Python raises ValueError.  Texts that [float]
    reads as infinities or NaN have no counterpart among the reals. *)

(** [value.replace(',', '.')]. *)
Fixpoint replace_comma (s : string) : string :=
  match s with
  | EmptyString => EmptyString
  | String c s' =>
    String (if decide (c = ","%char) then "."%char else c) (replace_comma s')
  end.

(** [d[k] = v] on a dict that keeps insertion order: an existing key
    keeps its place and takes the new value, a new key goes last. *)
Fixpoint dict_set {V} (k : string) (v : V) (d : list (string * V))
    : list (string * V) :=
  match d with
  | [] => [(k, v)]
  | (k', v') :: d' =>
    if decide (k' = k) then (k, v) :: d' else (k', v') :: dict_set k v d'
  end.

(** The dict [DictReader] makes of a record that is not longer than the
    header: [dict(zip(fieldnames, row))], then [None] under every field
    name the record is too short for. *)
Definition row_dict (fieldnames row : list string)
    : list (string * option string) :=
  foldl (λ d key, dict_set key None d)
        (foldl (λ d kc, dict_set kc.1 (Some kc.2) d) [] (zip fieldnames row))
        (drop (length row) fieldnames).

(** What [read_csv] returns or raises. *)
Inductive read_outcome : Type :=
  | Table (columns : gmap string (list R))
  | NoFieldnames   (* TypeError: the file is empty, [fieldnames] is None *)
  | ExtraCells.    (* KeyError(None): a record longer than the header *)

Section read_csv.
Variable float_ : string → option R.

(** Lines 23-26 for one value of a row dict: the text of a cell, or
    [None] for a missing cell, on which [replace] raises the
    AttributeError that the handler turns into 0.0. *)
Definition coerce (value : option string) : R :=
  match value with
  | Some text =>
    match float_ (replace_comma text) with
    | Some r => r
    | None => 0
    end
  | None => 0
  end.

(** The loop of lines 21-26 over the items of one row dict; every key
    of a row dict is a field name and so a key of [columns]. *)
Definition append_row (columns : gmap string (list R))
    (d : list (string * option string)) : gmap string (list R) :=
  foldl (λ cols kv, alter (λ col, col ++ [coerce kv.2]) kv.1 cols) columns d.

(** The loop of lines 20-26 over the records after the header.
    [DictReader] skips empty records.  A record longer than the header
    gets its surplus cells under the key [None]; that value has no
    [replace], and the handler's [columns[None]] raises KeyError. *)
Fixpoint read_rows (fieldnames : list string) (rows : list (list string))
    (columns : gmap string (list R)) : read_outcome :=
  match rows with
  | [] => Table columns
  | row :: rest =>
    if decide (row = []) then read_rows fieldnames rest columns
    else if decide (length fieldnames < length row)%nat then ExtraCells
    else read_rows fieldnames rest (append_row columns (row_dict fieldnames row))
  end.

Definition read_csv (records : list (list string)) : read_outcome :=
  match records with
  | [] => NoFieldnames
  | fieldnames :: rows =>
    read_rows fieldnames rows (list_to_map ((λ name, (name, [])) <$> fieldnames))
  end.

End read_csv.

(** A stand-in for [float] in the examples: it reads the text ["1.5"]
    and rejects every other text. *)
Definition float_sample (text : string) : option R :=
  if decide (text = "1.5") then Some (3 / 2) else None.

(** The records that are not empty, the ones [DictReader] yields. *)
Definition data_rows (rows : list (list string)) : list (list string) :=
  filter (λ row, row ≠ []) rows.

(** ** Views of the target list

    The target names that are columns of [data], and those that are not,
    in the order of the list. *)

Definition present (data : gmap string (list R)) (names : list string)
    : list string :=
  filter (λ n, is_Some (data !! n)) names.

Definition absent (data : gmap string (list R)) (names : list string)
    : list string :=
  filter (λ n, ¬ is_Some (data !! n)) names.

(** The lower-cased names that have an entry in the table, in the order
    of the names: the keys the prediction loop evaluates. *)
Definition known_keys (coeff : gmap string (R * R)) (names : list string)
    : list string :=
  filter (λ k, is_Some (coeff !! k)) (lower <$> names).

(** ** Views of a session

    What one line typed at the prompt makes the loop of lines 82-105
    print, and whether the loop survives it. *)

Definition turn_output (coeff : gmap string (R * R)) (names : list string)
    (l : line) : list output :=
  match l with
  | Blank => []
  | Malformed => [BadNumber]
  | Number x_val => LoadHeader x_val :: printed (predict_loop coeff names x_val)
  end.

(** A line that is answered: rejected text, or a number for which every
    evaluation returns. *)
Definition answered (coeff : gmap string (R * R)) (names : list string)
    (l : line) : Prop :=
  match l with
  | Blank => False
  | Malformed => True
  | Number x_val => outcome (predict_loop coeff names x_val) = Ok ()
  end.

Definition is_malformed (l : line) : bool :=
  match l with Malformed => true | _ => false end.

Definition is_bad_number (o : output) : bool :=
  match o with BadNumber => true | _ => false end.

(** ** Sample tables for the examples

    Two tables as [read_csv] could return them.  Both hold the load
    column with the values 2 and 3.  In [sample_rx] the column ["RX"] holds
    their squares.  [sample_failing] has in addition a column ["TX"] without
    a positive value. *)

Definition sample_rx : gmap string (list R) :=
  <["RX" := [4; 9]]> {["log generation" := [2; 3]]}.

Definition sample_failing : gmap string (list R) :=
  <["TX" := [-1; 0]]> sample_rx.

(** A table whose only target column, ["CPU load"], decays as [2 / x]
    over the loads 1 and 2. *)
Definition sample_decay : gmap string (list R) :=
  <["CPU load" := [2; 1]]> {["log generation" := [1; 2]]}.

(** [sample_decay] with a second column whose name differs from
    ["CPU load"] in letter case only and holds the squares of the loads. *)
Definition sample_collision : gmap string (list R) :=
  <["cpu load" := [1; 4]]> sample_decay.

(** ** Quantities of the least-squares analysis *)

(** Abscissas on which the fit is well-conditioned: not all zero, and
    the ratio of the singular values [√(1-|c|)] and [√(1+|c|)] of the
    scaled design matrix exceeds the bound [n·eps] of the rank test by a
    thousandth.  The rank test is then passed by a margin that rounding
    does not bridge, and the condition number of the least-squares
    problem is below 1000. *)
Definition well_conditioned (u : list R) : Prop :=
  let n := INR (length u) in
  let c := np.sum u / (sqrt (np.dot u u) * sqrt n) in
  np.dot u u ≠ 0
  ∧ (/ 1000 + n * float_eps) * sqrt (1 + Rabs c) < sqrt (1 - Rabs c).

(** [n·Σu² - (Σu)²], the determinant of the normal equations. *)
Definition gram (u : list R) : R :=
  INR (length u) * np.dot u u - np.sum u * np.sum u.

(** Sum of the squared distances of the elements of [u] to [a]. *)
Definition sq_dist (a : R) (u : list R) : R :=
  np.sum (map (λ t, (a - t) * (a - t)) u).

(** Sum of the squared residuals of the line [slope·t + intercept]. *)
Definition residual_ss (slope intercept : R) (u w : list R) : R :=
  np.sum (zip_with (λ t v, (v - (slope * t + intercept)) * (v - (slope * t + intercept))) u w).

(** * Properties *)

(** ** The range of the doubles *)

Lemma round_to_zero_pos : 0 < round_to_zero.
Proof. apply Rinv_0_lt_compat, IZR_lt. reflexivity. Qed.

Lemma round_to_zero_small : round_to_zero < / 1000000.
Proof.
  unfold round_to_zero. apply Rinv_0_lt_contravar; [lra |].
  apply IZR_lt. reflexivity.
Qed.

Lemma round_to_inf_large : 1000000 < round_to_inf.
Proof. apply IZR_lt. reflexivity. Qed.

Lemma float_eps_pos : 0 < float_eps.
Proof. apply Rinv_0_lt_compat, IZR_lt. reflexivity. Qed.

Lemma float_eps_small : float_eps < / 1000000.
Proof.
  unfold float_eps. apply Rinv_0_lt_contravar; [lra |].
  apply IZR_lt. reflexivity.
Qed.

Lemma float_least_above : round_to_zero < float_least.
Proof.
  unfold round_to_zero, float_least.
  apply Rinv_0_lt_contravar; apply IZR_lt; reflexivity.
Qed.

Lemma float_least_small : float_least < 1.
Proof.
  unfold float_least. rewrite <- Rinv_1. apply Rinv_0_lt_contravar; [lra |].
  apply IZR_lt. reflexivity.
Qed.

Lemma float_tiny_above : round_to_zero < float_tiny.
Proof.
  unfold round_to_zero, float_tiny.
  apply Rinv_0_lt_contravar; apply IZR_lt; reflexivity.
Qed.

Lemma float_tiny_small : float_tiny < / 1000000.
Proof.
  unfold float_tiny. apply Rinv_0_lt_contravar; [lra |].
  apply IZR_lt. reflexivity.
Qed.

Lemma float_max_large : 1000000 < float_max.
Proof. apply IZR_lt. reflexivity. Qed.

Lemma float_max_below : float_max < round_to_inf.
Proof. apply IZR_lt. reflexivity. Qed.

(** A normal double is within the range on both sides. *)
Lemma normal_double_range (v : R) :
  normal_double v → round_to_zero < v ∧ v < round_to_inf.
Proof.
  intros [Hlo Hhi]. pose proof float_tiny_above. pose proof float_max_below.
  lra.
Qed.

Lemma normal_double_moderate (v : R) :
  / 1000000 <= v <= 1000000 → normal_double v.
Proof.
  intros [Hlo Hhi]. pose proof float_tiny_small. pose proof float_max_large.
  unfold normal_double. lra.
Qed.

(** A power within the range is returned as it is. *)
Lemma math_range_ok (v : R) :
  round_to_zero < Rabs v → Rabs v < round_to_inf → math_range v = Ok v.
Proof.
  intros Hlo Hhi. unfold math_range.
  rewrite decide_False by lra. by rewrite decide_False by lra.
Qed.

Lemma math_range_moderate (v : R) :
  / 1000000 <= v <= 1000000 → math_range v = Ok v.
Proof.
  intros [Hlo Hhi]. pose proof round_to_zero_small. pose proof round_to_inf_large.
  apply math_range_ok; rewrite Rabs_pos_eq by lra; lra.
Qed.

Lemma math_range_overflow (v : R) :
  round_to_inf <= Rabs v → math_range v = Raise OverflowError.
Proof. intros H. unfold math_range. by rewrite decide_True. Qed.

Lemma math_range_underflow (v : R) :
  Rabs v <= round_to_zero → math_range v = Ok 0.
Proof.
  intros H. unfold math_range.
  pose proof round_to_zero_small. pose proof round_to_inf_large.
  rewrite decide_False by lra. by rewrite decide_True.
Qed.

(** What [math.pow] makes of a power is a number or OverflowError. *)
Lemma math_range_cases (v : R) :
  is_Ok (math_range v) ∨ math_range v = Raise OverflowError.
Proof.
  unfold math_range. repeat case_decide;
    first [ left; eexists; reflexivity | right; reflexivity ].
Qed.

(** An exponential within the range is returned as it is. *)
Lemma np_exp_ok (v : R) : round_to_zero < exp v → np.exp v = exp v.
Proof. intros H. unfold np.exp. by rewrite decide_False by lra. Qed.

Lemma np_exp_underflow (v : R) : exp v <= round_to_zero → np.exp v = 0.
Proof. intros H. unfold np.exp. by rewrite decide_True. Qed.

Lemma np_exp_ln (a : R) : round_to_zero < a → np.exp (ln a) = a.
Proof.
  intros Ha. pose proof round_to_zero_pos.
  rewrite np_exp_ok; rewrite exp_ln; lra.
Qed.

Lemma np_exp_nonneg (v : R) : 0 <= np.exp v.
Proof.
  unfold np.exp. case_decide; [lra |]. left. apply exp_pos.
Qed.

(** [np.exp] is positive exactly when the exponential does not round to
    zero, and is the exponential then. *)
Lemma np_exp_pos (v : R) : 0 < np.exp v ↔ round_to_zero < exp v.
Proof.
  unfold np.exp. case_decide; split; intros; lra || apply exp_pos.
Qed.

Lemma np_exp_pos_eq (v : R) : 0 < np.exp v → np.exp v = exp v.
Proof. intros H. apply np_exp_ok. by apply np_exp_pos. Qed.

(** ** The positivity mask *)

Section mask.
Implicit Types x y : list R.

Lemma gt0_length x : length (np.gt0 x) = length x.
Proof. apply length_map. Qed.

Lemma and_same_length x y :
  length x = length y →
  np.and_ (np.gt0 x) (np.gt0 y) = Ok (zip_with andb (np.gt0 x) (np.gt0 y)).
Proof.
  intros Hlen. unfold np.and_.
  rewrite decide_True; [done | by rewrite !gt0_length].
Qed.

Lemma mask_length x y :
  length x = length y →
  length (zip_with andb (np.gt0 x) (np.gt0 y)) = length x.
Proof. intros Hlen. rewrite length_zip_with, !gt0_length. lia. Qed.

(** With arrays of one length, [power_law_fit] is [polyfit] on the logs
    of the surviving pairs. *)
Lemma power_law_fit_eq x y :
  length x = length y →
  power_law_fit x y =
    ('(b, log_a) ← np.polyfit1 (np.log (positive_x x y)) (np.log (positive_y x y));
     Ok (np.exp log_a, b)).
Proof.
  intros Hlen. unfold power_law_fit.
  rewrite (and_same_length _ _ Hlen). cbn [mbind result_bind rbind].
  set (mask := zip_with andb (np.gt0 x) (np.gt0 y)).
  assert (np.index x mask = Ok (np.select mask x)) as ->.
  { unfold np.index. rewrite decide_True; [done | by apply mask_length]. }
  assert (np.index y mask = Ok (np.select mask y)) as ->.
  { unfold np.index. rewrite decide_True; [done |].
    rewrite <- Hlen. by apply mask_length. }
  reflexivity.
Qed.

Lemma positive_length x y :
  length (positive_x x y) = length (positive_y x y).
Proof.
  unfold positive_x, positive_y. revert y.
  induction x as [|u x IH]; intros [|v y]; simpl; try done.
  destruct (bool_decide (0 < u)), (bool_decide (0 < v)); simpl; auto.
Qed.

(** Every surviving pair is positive in both coordinates, so masking
    a second time keeps everything. *)
Lemma positive_x_idem x y :
  positive_x (positive_x x y) (positive_y x y) = positive_x x y.
Proof.
  unfold positive_x, positive_y. revert y.
  induction x as [|u x IH]; intros [|v y]; simpl; try done.
  destruct (bool_decide (0 < u)) eqn:Hu, (bool_decide (0 < v)) eqn:Hv;
    simpl; rewrite ?Hu, ?Hv; simpl; auto using f_equal.
Qed.

Lemma positive_y_idem x y :
  positive_y (positive_x x y) (positive_y x y) = positive_y x y.
Proof.
  unfold positive_x, positive_y. revert y.
  induction x as [|u x IH]; intros [|v y]; simpl; try done.
  destruct (bool_decide (0 < u)) eqn:Hu, (bool_decide (0 < v)) eqn:Hv;
    simpl; rewrite ?Hu, ?Hv; simpl; auto using f_equal.
Qed.

Lemma positive_x_pos x y : Forall (λ v, 0 < v) (positive_x x y).
Proof.
  unfold positive_x. revert y.
  induction x as [|u x IH]; intros [|v y]; simpl; try by constructor.
  destruct (bool_decide (0 < u)) eqn:Hu, (bool_decide (0 < v)); simpl; auto.
  constructor; [by apply bool_decide_eq_true in Hu | auto].
Qed.

(** On data that is positive throughout the mask keeps everything. *)
Lemma positive_all x y :
  length x = length y →
  Forall (λ v, 0 < v) x → Forall (λ v, 0 < v) y →
  positive_x x y = x ∧ positive_y x y = y.
Proof.
  unfold positive_x, positive_y. revert y.
  induction x as [|u x IH]; intros [|v y] Hlen Hx Hy; simpl in *; try done.
  inversion Hx as [|? ? Hu Hx']; inversion Hy as [|? ? Hv Hy']; subst.
  rewrite !bool_decide_eq_true_2 by done. simpl.
  destruct (IH y) as [-> ->]; auto.
Qed.

End mask.

(** ** Sums, the Gram determinant and the least-squares line *)

Section least_squares.
Implicit Types u w : list R.

Lemma sum_cons t u : np.sum (t :: u) = t + np.sum u.
Proof. reflexivity. Qed.

Lemma dot_cons t u s w : np.dot (t :: u) (s :: w) = t * s + np.dot u w.
Proof. reflexivity. Qed.

Lemma sq_dist_cons a t u :
  sq_dist a (t :: u) = (a - t) * (a - t) + sq_dist a u.
Proof. reflexivity. Qed.

Lemma sum_affine c b u :
  np.sum (map (λ t, c + b * t) u) = INR (length u) * c + b * np.sum u.
Proof.
  induction u as [|t u IH]; [simpl; lra |].
  cbn [map length]. rewrite !sum_cons, IH, S_INR. lra.
Qed.

Lemma dot_affine c b u :
  np.dot u (map (λ t, c + b * t) u) = c * np.sum u + b * np.dot u u.
Proof.
  induction u as [|t u IH]; [unfold np.dot; simpl; lra |].
  cbn [map]. rewrite !dot_cons, sum_cons, IH. lra.
Qed.

Lemma square_nonneg (r : R) : 0 <= r * r.
Proof. apply Rle_0_sqr. Qed.

Lemma square_pos (r : R) : r ≠ 0 → 0 < r * r.
Proof. apply Rsqr_pos_lt. Qed.

Lemma sq_dist_nonneg a u : 0 <= sq_dist a u.
Proof.
  induction u as [|t u IH]; [unfold sq_dist; simpl; lra |].
  rewrite sq_dist_cons. pose proof (square_nonneg (a - t)). lra.
Qed.

Lemma sq_dist_pos a u t : t ∈ u → t ≠ a → 0 < sq_dist a u.
Proof.
  intros Hin Hne. induction Hin as [t u | t s u Hin IH];
    rewrite sq_dist_cons.
  - pose proof (sq_dist_nonneg a u).
    assert (0 < (a - t) * (a - t)) by (apply square_pos; lra). lra.
  - specialize (IH Hne). pose proof (square_nonneg (a - s)). lra.
Qed.

Lemma sq_dist_expand a u :
  sq_dist a u = INR (length u) * (a * a) - 2 * a * np.sum u + np.dot u u.
Proof.
  induction u as [|t u IH]; [unfold sq_dist, np.dot; simpl; lra |].
  rewrite sq_dist_cons, IH, sum_cons, dot_cons. cbn [length].
  rewrite S_INR. lra.
Qed.

Lemma gram_cons a u : gram (a :: u) = gram u + sq_dist a u.
Proof.
  rewrite sq_dist_expand. unfold gram.
  rewrite dot_cons, sum_cons. cbn [length]. rewrite S_INR. lra.
Qed.

Lemma gram_nonneg u : 0 <= gram u.
Proof.
  induction u as [|a u IH].
  - unfold gram. simpl. lra.
  - rewrite gram_cons. pose proof (sq_dist_nonneg a u). lra.
Qed.

Lemma dot_self_nonneg u : 0 <= np.dot u u.
Proof.
  induction u as [|t u IH]; [unfold np.dot; simpl; lra |].
  rewrite dot_cons. pose proof (square_nonneg t). lra.
Qed.

Lemma dot_nonzero_nonempty u : np.dot u u ≠ 0 → u ≠ [].
Proof. intros H ->. by apply H. Qed.

Lemma INR_length_pos u : u ≠ [] → 0 < INR (length u).
Proof. destruct u; [done |]. intros _. apply lt_0_INR. cbn. lia. Qed.

(** ** The rank test of [np.polyfit1] *)

(** The cosine [c] between the scaled columns: [|c| ≤ 1], and [1 - c²] is
    the Gram determinant divided by [n·Σu²]. *)
Lemma cosine_facts u (a : R) :
  np.dot u u ≠ 0 →
  a = Rabs (np.sum u / (sqrt (np.dot u u) * sqrt (INR (length u)))) →
  0 <= a <= 1
  ∧ (1 - a) * (1 + a) * (INR (length u) * np.dot u u) = gram u.
Proof.
  intros Hxx Hdef.
  pose proof (INR_length_pos u (dot_nonzero_nonempty u Hxx)) as Hn.
  pose proof (dot_self_nonneg u) as Hxx0.
  pose proof (gram_nonneg u) as Hg. unfold gram in *.
  set (n := INR (length u)) in *. set (sx := np.sum u) in *.
  set (sxx := np.dot u u) in *.
  assert (0 < sqrt sxx) as Hrx by (apply sqrt_lt_R0; lra).
  assert (0 < sqrt n) as Hrn by (by apply sqrt_lt_R0).
  assert (sqrt sxx * sqrt sxx = sxx) as Hsx by (apply sqrt_sqrt; lra).
  assert (sqrt n * sqrt n = n) as Hsn by (apply sqrt_sqrt; lra).
  set (rx := sqrt sxx) in *. set (rn := sqrt n) in *.
  assert (0 < rx * rn) as Hd by (by apply Rmult_lt_0_compat).
  assert (a * (rx * rn) = Rabs sx) as Ha.
  { rewrite Hdef. unfold Rdiv.
    rewrite Rabs_mult, Rabs_inv, (Rabs_pos_eq (rx * rn)) by lra.
    field. lra. }
  assert (0 <= a) as Ha0 by (rewrite Hdef; apply Rabs_pos).
  assert (a * a * (n * sxx) = sx * sx) as Hsq.
  { rewrite <- Hsx, <- Hsn.
    replace (a * a * (rn * rn * (rx * rx)))
      with ((a * (rx * rn)) * (a * (rx * rn))) by ring.
    rewrite Ha. unfold Rabs. destruct (Rcase_abs sx); ring. }
  assert (0 < n * sxx) as HP by (apply Rmult_lt_0_compat; lra).
  split; [split; [done |] |].
  - destruct (Rle_dec a 1) as [|Hgt]; [done |]. exfalso.
    assert (1 * (n * sxx) < a * a * (n * sxx)); [| lra].
    apply Rmult_lt_compat_r; [done |]. nra.
  - replace ((1 - a) * (1 + a) * (n * sxx))
      with (n * sxx - a * a * (n * sxx)) by ring.
    rewrite Hsq. ring.
Qed.

(** Well-conditioned abscissas pass the rank test. *)
Lemma well_conditioned_full_rank u :
  well_conditioned u → np.dot u u ≠ 0 ∧ np.full_rank u.
Proof.
  intros [Hxx Hwc]. split; [done |]. unfold np.full_rank. cbv zeta.
  set (a := Rabs (np.sum u / (sqrt (np.dot u u) * sqrt (INR (length u))))) in *.
  pose proof (sqrt_pos (1 + a)).
  assert (INR (length u) * float_eps * sqrt (1 + a)
          <= (/ 1000 + INR (length u) * float_eps) * sqrt (1 + a)) by nra.
  lra.
Qed.

(** Abscissas that pass the rank test have a positive Gram determinant. *)
Lemma full_rank_gram_pos u : np.dot u u ≠ 0 → np.full_rank u → 0 < gram u.
Proof.
  intros Hxx Hrank.
  destruct (cosine_facts u _ Hxx eq_refl) as [[Ha0 Ha1] Hg].
  unfold np.full_rank in Hrank. cbv zeta in Hrank.
  set (a := Rabs (np.sum u / (sqrt (np.dot u u) * sqrt (INR (length u))))) in *.
  pose proof (INR_length_pos u (dot_nonzero_nonempty u Hxx)) as Hn.
  pose proof (dot_self_nonneg u) as Hxx0.
  pose proof float_eps_pos as He.
  assert (0 <= INR (length u) * float_eps * sqrt (1 + a)) as Hl.
  { apply Rmult_le_pos; [apply Rmult_le_pos; lra | apply sqrt_pos]. }
  assert (0 < 1 - a) as Hlt.
  { destruct (Rlt_dec 0 (1 - a)) as [|Hle]; [done |]. exfalso.
    rewrite (sqrt_neg_0 (1 - a)) in Hrank by lra. lra. }
  rewrite <- Hg.
  apply Rmult_lt_0_compat; [apply Rmult_lt_0_compat; lra |].
  apply Rmult_lt_0_compat; lra.
Qed.

Lemma well_conditioned_gram_pos u : well_conditioned u → 0 < gram u.
Proof.
  intros Hwc. destruct (well_conditioned_full_rank u Hwc) as [Hxx Hrank].
  by apply full_rank_gram_pos.
Qed.

(** A Gram determinant that is not small against [n·Σu²] makes the fit
    well-conditioned. *)
Lemma well_conditioned_intro u :
  np.dot u u ≠ 0 →
  4 * (/ 1000 + INR (length u) * float_eps)
    * (/ 1000 + INR (length u) * float_eps)
    * (INR (length u) * np.dot u u) < gram u →
  well_conditioned u.
Proof.
  intros Hxx Hsep. split; [done |].
  destruct (cosine_facts u _ Hxx eq_refl) as [[Ha0 Ha1] Hg].
  set (a := Rabs (np.sum u / (sqrt (np.dot u u) * sqrt (INR (length u))))) in *.
  pose proof (INR_length_pos u (dot_nonzero_nonempty u Hxx)) as Hn.
  pose proof (dot_self_nonneg u) as Hxx0.
  pose proof float_eps_pos as He.
  set (r := / 1000 + INR (length u) * float_eps) in *.
  assert (0 < r) as Hr by (unfold r; nra).
  assert (0 < INR (length u) * np.dot u u) as HP
    by (apply Rmult_lt_0_compat; lra).
  assert (4 * r * r < (1 - a) * (1 + a)) as Hq.
  { apply (Rmult_lt_reg_r (INR (length u) * np.dot u u)); [done |].
    rewrite Hg. lra. }
  assert (r * r * (1 + a) < 1 - a) as Hlt by nra.
  assert (r * sqrt (1 + a) = sqrt (r * r * (1 + a))) as ->.
  { rewrite sqrt_mult by nra. by rewrite sqrt_square by lra. }
  apply sqrt_lt_1; nra.
Qed.

(** Two abscissas that differ by more than a hundredth of their size. *)
Lemma well_conditioned_pair (s t m : R) :
  Rabs s <= m → Rabs t <= m → m < 100 * Rabs (s - t) →
  well_conditioned [s; t].
Proof.
  intros Hs Ht Hm.
  pose proof float_eps_pos as He. pose proof float_eps_small as He'.
  assert (s * s <= m * m) as Hs2.
  { pose proof (Rabs_pos s). replace (s * s) with (Rabs s * Rabs s)
      by (unfold Rabs; destruct (Rcase_abs s); ring). nra. }
  assert (t * t <= m * m) as Ht2.
  { pose proof (Rabs_pos t). replace (t * t) with (Rabs t * Rabs t)
      by (unfold Rabs; destruct (Rcase_abs t); ring). nra. }
  assert (m * m < 10000 * ((s - t) * (s - t))) as Hd.
  { pose proof (Rabs_pos s). pose proof (Rabs_pos (s - t)).
    replace ((s - t) * (s - t)) with (Rabs (s - t) * Rabs (s - t))
      by (unfold Rabs; destruct (Rcase_abs (s - t)); ring). nra. }
  assert (0 < (s - t) * (s - t)) as Hpos.
  { pose proof (square_nonneg m). lra. }
  apply well_conditioned_intro.
  - unfold np.dot. cbn. pose proof (square_nonneg s). pose proof (square_nonneg t).
    intros Hz. assert (s * s = 0 ∧ t * t = 0) as [Hs0 Ht0] by (split; lra).
    apply Rmult_integral in Hs0, Ht0.
    assert (s = 0) as -> by tauto. assert (t = 0) as -> by tauto.
    rewrite Rminus_diag in Hpos. lra.
  - unfold gram, np.dot, np.sum. cbn.
    set (r := / 1000 + (1 + 1) * float_eps).
    assert (0 < r < 2 / 1000) as [Hr0 Hr1] by (unfold r; lra).
    assert (r * r < 4 / 1000000) as Hr2 by nra.
    replace ((1 + 1) * (s * s + (t * t + 0)) - (s + (t + 0)) * (s + (t + 0)))
      with ((s - t) * (s - t)) by ring.
    set (X := s * s + (t * t + 0)) in *. set (Y := (s - t) * (s - t)) in *.
    assert (X <= 2 * (m * m)) by (unfold X; lra).
    assert (0 <= X) by (unfold X; pose proof (square_nonneg s);
                        pose proof (square_nonneg t); lra).
    assert (r * r * X <= 4 / 1000000 * X) by nra.
    replace (4 * r * r * ((1 + 1) * X)) with (8 * (r * r * X)) by ring.
    lra.
Qed.

(** Two abscissas that agree up to rounding fail the rank test. *)
Lemma pair_rank_one (s t : R) :
  s * s + t * t ≠ 0 →
  (s - t) * (s - t) <= 8 * (float_eps * float_eps) * (s * s + t * t) →
  ¬ np.full_rank [s; t].
Proof.
  intros Hnz Hclose Hrank.
  assert (np.dot [s; t] [s; t] ≠ 0) as Hxx.
  { unfold np.dot. cbn. by rewrite Rplus_0_r. }
  destruct (cosine_facts [s; t] _ Hxx eq_refl) as [[Ha0 Ha1] Hg].
  unfold np.full_rank in Hrank. cbv zeta in Hrank.
  set (a := Rabs (np.sum [s; t]
                  / (sqrt (np.dot [s; t] [s; t]) * sqrt (INR (length [s; t])))))
    in *.
  unfold gram, np.dot, np.sum in Hg. cbn in Hg, Hrank.
  pose proof float_eps_pos as He.
  set (X := s * s + t * t) in *.
  assert (0 < X) as HX.
  { unfold X in *. pose proof (square_nonneg s). pose proof (square_nonneg t).
    lra. }
  assert ((1 - a) * (1 + a) * X <= 4 * (float_eps * float_eps) * X) as Hq.
  { replace (s * s + (t * t + 0)) with X in Hg by (unfold X; ring).
    replace ((1 + 1) * X - (s + (t + 0)) * (s + (t + 0)))
      with ((s - t) * (s - t)) in Hg by (unfold X; ring).
    lra. }
  assert ((1 - a) * (1 + a) <= 4 * (float_eps * float_eps)) as Hq'.
  { apply (Rmult_le_reg_r X); [done | lra]. }
  assert (1 - a <= (2 * float_eps) * (2 * float_eps)) as Hle by nra.
  assert (sqrt (1 - a) <= 2 * float_eps) as Hs.
  { rewrite <- (sqrt_square (2 * float_eps)) by lra. by apply sqrt_le_1_alt. }
  assert (1 <= sqrt (1 + a)) as H1.
  { rewrite <- sqrt_1 at 1. apply sqrt_le_1_alt. lra. }
  assert ((1 + 1) * float_eps * 1 <= (1 + 1) * float_eps * sqrt (1 + a))
    by (apply Rmult_le_compat_l; lra).
  lra.
Qed.

(** [polyfit1] on arrays of one length, by cases. *)
Lemma polyfit1_eq u w :
  u ≠ [] → length u = length w →
  np.polyfit1 u w
  = if decide (np.dot u u = 0) then Raise LinAlgError
    else if decide (np.full_rank u)
    then Ok ((INR (length u) * np.dot u w - np.sum u * np.sum w) / gram u,
             (np.dot u u * np.sum w - np.sum u * np.dot u w) / gram u)
    else
      let c := np.sum u / (sqrt (np.dot u u) * sqrt (INR (length u))) in
      let sgn := if decide (0 <= np.sum u) then 1 else -1 in
      let z := (np.dot u w / sqrt (np.dot u u)
                + sgn * (np.sum w / sqrt (INR (length u))))
               / (2 * (1 + Rabs c)) in
      Ok (z / sqrt (np.dot u u), sgn * z / sqrt (INR (length u))).
Proof.
  intros Hne Hlen. unfold np.polyfit1. destruct u as [|t u]; [done |].
  by rewrite decide_True.
Qed.

(** On well-conditioned abscissas [polyfit1] solves the normal
    equations. *)
Lemma polyfit1_regular u w :
  length u = length w → well_conditioned u →
  np.polyfit1 u w
  = Ok ((INR (length u) * np.dot u w - np.sum u * np.sum w) / gram u,
        (np.dot u u * np.sum w - np.sum u * np.dot u w) / gram u).
Proof.
  intros Hlen Hwc. destruct (well_conditioned_full_rank u Hwc) as [Hxx Hrank].
  rewrite (polyfit1_eq u w (dot_nonzero_nonempty u Hxx) Hlen).
  rewrite decide_False by done. by rewrite decide_True.
Qed.

(** On points of a line over well-conditioned abscissas, [polyfit]
    returns the slope and intercept of that line. *)
Lemma polyfit1_line c b u :
  well_conditioned u →
  np.polyfit1 u (map (λ t, c + b * t) u) = Ok (b, c).
Proof.
  intros Hwc. pose proof (well_conditioned_gram_pos u Hwc) as Hg.
  rewrite polyfit1_regular by (by rewrite ?length_map).
  rewrite sum_affine, dot_affine.
  f_equal. f_equal.
  - unfold gram. field. fold (gram u). lra.
  - unfold gram. field. fold (gram u). lra.
Qed.

End least_squares.

(** ** [power_law_fit] on exact power-law data *)

Section recovery.
Implicit Types x y : list R.

Lemma power_law_pos a b v : 0 < a → 0 < a * Rpower v b.
Proof.
  intros Ha. apply Rmult_lt_0_compat; [done |]. unfold Rpower. apply exp_pos.
Qed.

Lemma log_power_law a b x :
  0 < a → Forall (λ v, 0 < v) x →
  np.log (map (λ v, a * Rpower v b) x)
  = map (λ t, ln a + b * t) (np.log x).
Proof.
  intros Ha Hx. unfold np.log. rewrite !map_map.
  apply map_ext_Forall. eapply Forall_impl; [exact Hx |].
  intros v Hv. simpl. rewrite ln_mult, ln_Rpower; [done | done |].
  unfold Rpower. apply exp_pos.
Qed.

(** Samples of [y = a·x^b] over positive abscissas whose logarithms are
    well-conditioned, with an [a] that does not round to zero: the fit
    returns [(a, b)]. *)
Lemma power_law_recovery a b x :
  round_to_zero < a → Forall (λ v, 0 < v) x → well_conditioned (np.log x) →
  power_law_fit x (map (λ v, a * Rpower v b) x) = Ok (a, b).
Proof.
  intros Ha Hx Hwc. pose proof round_to_zero_pos as H0.
  rewrite power_law_fit_eq by (by rewrite length_map).
  destruct (positive_all x (map (λ v, a * Rpower v b) x)) as [-> ->].
  { by rewrite length_map. }
  { done. }
  { apply Forall_map, Forall_true. intros v. apply power_law_pos. lra. }
  rewrite log_power_law by (lra || done).
  rewrite (polyfit1_line (ln a) b (np.log x) Hwc).
  cbn. by rewrite np_exp_ln.
Qed.

End recovery.

(** ** The shapes [power_law_fit] accepts *)

Section fit_shapes.
Implicit Types x y : list R.

(** Arrays of different lengths never reach the least-squares solver:
    the mask cannot be formed (ValueError), or it does not match one of
    the arrays (IndexError), or it is empty and selects nothing, on which
    [np.polyfit] raises TypeError. *)
Lemma power_law_fit_mismatch x y :
  length x ≠ length y →
  power_law_fit x y
  = Raise (if decide (length x = 1 ∨ length y = 1)%nat
           then if decide (x = [] ∨ y = []) then TypeError else IndexError
           else ValueError).
Proof.
  intros Hne. unfold power_law_fit, np.and_. rewrite !gt0_length.
  rewrite decide_False by done.
  destruct (decide (length x = 1%nat)) as [Hx|Hx].
  - rewrite (decide_True (P := (length x = 1 ∨ length y = 1)%nat)) by tauto.
    cbn [mbind result_bind rbind].
    destruct y as [|v y].
    + by destruct x as [|u [|? ?]].
    + set (mask := map (andb (hd false (np.gt0 x))) (np.gt0 (v :: y))).
      assert (np.index x mask = Raise IndexError) as ->.
      { unfold np.index. rewrite decide_False.
        - by rewrite decide_False.
        - unfold mask. rewrite length_map, gt0_length. congruence. }
      rewrite decide_False; [done |].
      intros [->| ?]; done.
  - destruct (decide (length y = 1%nat)) as [Hy|Hy].
    + rewrite (decide_True (P := (length x = 1 ∨ length y = 1)%nat)) by tauto.
      cbn [mbind result_bind rbind].
      destruct x as [|u x].
      * by destruct y as [|v [|? ?]].
      * set (mask := map (λ b, b && hd false (np.gt0 y)) (np.gt0 (u :: x))).
        assert (length mask = length (u :: x)) as Hm
          by (unfold mask; by rewrite length_map, gt0_length).
        assert (np.index (u :: x) mask = Ok (np.select mask (u :: x))) as ->.
        { unfold np.index. by rewrite decide_True. }
        cbn [mbind result_bind rbind].
        assert (np.index y mask = Raise IndexError) as ->.
        { unfold np.index. rewrite decide_False by congruence.
          by rewrite decide_False by (rewrite Hm; done). }
        rewrite decide_False; [done |].
        intros [?| ->]; done.
    + by rewrite (decide_False (P := (length x = 1 ∨ length y = 1)%nat)) by tauto.
Qed.

Lemma power_law_fit_ok_length x y r :
  power_law_fit x y = Ok r → length x = length y.
Proof.
  intros H. destruct (decide (length x = length y)) as [|Hne]; [done |].
  rewrite (power_law_fit_mismatch x y Hne) in H. done.
Qed.

(** A returned pair comes from a returning [polyfit1] on the logarithms of
    the surviving pairs. *)
Lemma power_law_fit_ok_inv x y a b :
  power_law_fit x y = Ok (a, b) →
  ∃ log_a, a = np.exp log_a
    ∧ np.polyfit1 (np.log (positive_x x y)) (np.log (positive_y x y))
      = Ok (b, log_a).
Proof.
  intros H. pose proof (power_law_fit_ok_length x y _ H) as Hlen.
  rewrite (power_law_fit_eq x y Hlen) in H.
  destruct (np.polyfit1 _ _) as [[s i]|]; [| done].
  cbn in H. injection H as <- <-. by exists i.
Qed.

(** The first coefficient is never negative. *)
Lemma power_law_fit_nonneg x y a b :
  power_law_fit x y = Ok (a, b) → 0 <= a.
Proof.
  intros H. destruct (power_law_fit_ok_inv x y a b H) as (i & -> & _).
  apply np_exp_nonneg.
Qed.
End fit_shapes.

(** ** The fit when all abscissas coincide *)

Section single_abscissa.
Implicit Types x y u w : list R.

Lemma sum_replicate n (a : R) : np.sum (replicate n a) = INR n * a.
Proof.
  induction n as [|n IH]; [simpl; lra |].
  cbn [replicate]. rewrite sum_cons, IH, S_INR. lra.
Qed.

Lemma dot_replicate n (a : R) :
  np.dot (replicate n a) (replicate n a) = INR n * (a * a).
Proof.
  induction n as [|n IH]; [unfold np.dot; simpl; lra |].
  cbn [replicate]. rewrite dot_cons, IH, S_INR. lra.
Qed.

Lemma INR_S_pos n : 0 < INR (S n).
Proof. apply lt_0_INR. lia. Qed.

Lemma dot_replicate_l n (a : R) w :
  length w = n → np.dot (replicate n a) w = a * np.sum w.
Proof.
  intros <-. induction w as [|v w IH]; [unfold np.dot; simpl; lra |].
  cbn [length replicate]. rewrite dot_cons, sum_cons, IH. lra.
Qed.

Lemma sqrt_dot_replicate k (u0 : R) :
  sqrt (INR (S k) * (u0 * u0)) = sqrt (INR (S k)) * Rabs u0.
Proof.
  pose proof (INR_S_pos k).
  rewrite sqrt_mult by (lra || apply square_nonneg).
  change (u0 * u0) with (Rsqr u0). by rewrite sqrt_Rsqr_abs.
Qed.

(** One abscissa repeated: the two scaled columns are parallel, the
    cosine between them is 1 or -1. *)
Lemma replicate_cosine k (u0 : R) :
  u0 ≠ 0 →
  Rabs (INR (S k) * u0 / (sqrt (INR (S k)) * Rabs u0 * sqrt (INR (S k)))) = 1.
Proof.
  intros Hu. pose proof (INR_S_pos k) as Hn.
  set (n := INR (S k)) in *.
  assert (0 < sqrt n) as Hr by (by apply sqrt_lt_R0).
  assert (sqrt n * sqrt n = n) as Hrr by (apply sqrt_sqrt; lra).
  pose proof (Rabs_pos_lt u0 Hu) as Hpos.
  unfold Rdiv. rewrite Rabs_mult, Rabs_inv, !Rabs_mult, Rabs_Rabsolu.
  rewrite (Rabs_pos_eq n), (Rabs_pos_eq (sqrt n)) by lra.
  rewrite <- Hrr at 1. field. lra.
Qed.

(** So one abscissa repeated never passes the rank test. *)
Lemma replicate_rank_one k (u0 : R) :
  u0 ≠ 0 → ¬ np.full_rank (replicate (S k) u0).
Proof.
  intros Hu. pose proof (INR_S_pos k) as Hn. pose proof float_eps_pos as He.
  unfold np.full_rank. cbv zeta.
  rewrite length_replicate, dot_replicate, sum_replicate.
  rewrite sqrt_dot_replicate, (replicate_cosine k u0 Hu).
  rewrite Rminus_diag, sqrt_0.
  pose proof (sqrt_pos (1 + 1)).
  assert (0 <= INR (S k) * float_eps) by (apply Rmult_le_pos; lra).
  intros Hlt. assert (0 <= INR (S k) * float_eps * sqrt (1 + 1))
    by (by apply Rmult_le_pos). lra.
Qed.

(** One abscissa [u0 ≠ 0] repeated: the rank-one branch of [polyfit]. *)
Lemma polyfit1_single_abscissa k (u0 : R) w :
  u0 ≠ 0 → length w = S k →
  np.polyfit1 (replicate (S k) u0) w
  = Ok (np.sum w / (2 * (INR (S k) * u0)), np.sum w / (2 * INR (S k))).
Proof.
  intros Hu Hw. pose proof (INR_S_pos k) as Hn.
  rewrite polyfit1_eq by (done || by rewrite length_replicate).
  rewrite decide_False.
  2:{ rewrite dot_replicate. pose proof (square_pos u0 Hu).
      intros Hz. apply Rmult_integral in Hz as [Hz|Hz]; lra. }
  rewrite decide_False by (by apply replicate_rank_one).
  cbv zeta.
  rewrite length_replicate, dot_replicate, sum_replicate, (dot_replicate_l _ _ _ Hw).
  rewrite sqrt_dot_replicate, (replicate_cosine k u0 Hu).
  set (n := INR (S k)) in *.
  assert (0 < sqrt n) as Hr by (by apply sqrt_lt_R0).
  assert (sqrt n * sqrt n = n) as Hrr by (apply sqrt_sqrt; lra).
  set (r := sqrt n) in *. rewrite <- Hrr.
  destruct (Rlt_dec 0 u0) as [Hpos|Hneg].
  - rewrite decide_True by nra. rewrite (Rabs_pos_eq u0) by lra.
    f_equal. f_equal; field; lra.
  - assert (u0 < 0) as Hlt by lra.
    rewrite decide_False by nra. rewrite (Rabs_left u0) by lra.
    f_equal. f_equal; field; lra.
Qed.

(** The same through [power_law_fit]: one abscissa [x0], positive and
    different from 1, repeated [k+1] times against positive ordinates. *)
Lemma fit_single_abscissa k (x0 : R) y :
  0 < x0 → x0 ≠ 1 → length y = S k → Forall (λ v, 0 < v) y →
  power_law_fit (replicate (S k) x0) y
  = Ok (np.exp (np.sum (np.log y) / (2 * INR (S k))),
        np.sum (np.log y) / (2 * (INR (S k) * ln x0))).
Proof.
  intros Hx0 Hx1 Hy Hpos.
  rewrite power_law_fit_eq by (by rewrite length_replicate).
  destruct (positive_all (replicate (S k) x0) y) as [-> ->].
  { by rewrite length_replicate. }
  { by apply Forall_replicate. }
  { done. }
  unfold np.log at 1. change map with (@fmap list _) at 1.
  rewrite fmap_replicate.
  rewrite polyfit1_single_abscissa.
  - done.
  - by apply ln_neq_0.
  - unfold np.log. by rewrite length_map.
Qed.

End single_abscissa.

(** ** [polyfit1] returns a least-squares line *)

Section least_squares_optimal.
Implicit Types u w : list R.

Lemma residual_ss_cons s i t v u w :
  residual_ss s i (t :: u) (v :: w)
  = (v - (s * t + i)) * (v - (s * t + i)) + residual_ss s i u w.
Proof. reflexivity. Qed.

(** The sum of squared residuals as a quadratic in slope and intercept. *)
Lemma residual_ss_expand s i u w :
  length u = length w →
  residual_ss s i u w
  = np.dot w w - 2 * s * np.dot u w - 2 * i * np.sum w
    + s * s * np.dot u u + 2 * s * i * np.sum u + INR (length u) * (i * i).
Proof.
  revert w. induction u as [|t u IH]; intros [|v w] Hlen; try done.
  - unfold residual_ss, np.dot. simpl. lra.
  - injection Hlen as Hlen. rewrite residual_ss_cons, (IH w Hlen).
    rewrite !dot_cons, !sum_cons. cbn [length]. rewrite S_INR. lra.
Qed.

Lemma sq_dist_zero a u t : sq_dist a u = 0 → t ∈ u → t = a.
Proof.
  intros Hz Hin. destruct (decide (t = a)) as [|Hne]; [done |].
  pose proof (sq_dist_pos a u t Hin Hne). lra.
Qed.

Lemma dot_constant a u w :
  length u = length w → (∀ t, t ∈ u → t = a) → np.dot u w = a * np.sum w.
Proof.
  revert w. induction u as [|t u IH]; intros [|v w] Hlen Hall; try done.
  - unfold np.dot. simpl. lra.
  - injection Hlen as Hlen. rewrite dot_cons, sum_cons.
    rewrite (IH w Hlen) by (intros ? ?; apply Hall; by right).
    rewrite (Hall t) by by left. lra.
Qed.

(** A vanishing Gram determinant means one abscissa, the mean. *)
Lemma gram_zero_constant u t :
  u ≠ [] → gram u = 0 → t ∈ u → t = np.sum u / INR (length u).
Proof.
  intros Hne Hg Hin.
  assert (0 < INR (length u)) as Hn.
  { destruct u; [done |]. apply INR_S_pos. }
  apply (sq_dist_zero _ u); [| done].
  rewrite sq_dist_expand. unfold gram in Hg.
  apply (Rmult_eq_reg_l (INR (length u))); [| lra].
  rewrite Rmult_0_r, <- Hg. field. lra.
Qed.

Lemma polyfit1_ok_inv u w r :
  np.polyfit1 u w = Ok r → u ≠ [] ∧ length u = length w.
Proof.
  unfold np.polyfit1. destruct u as [|t u]; [done |].
  case_decide; [done | done].
Qed.

(** On well-conditioned abscissas the normal equations hold for the pair
    [polyfit1] returns. *)
Lemma polyfit1_normal_equations u w s i :
  well_conditioned u → np.polyfit1 u w = Ok (s, i) →
  length u = length w
  ∧ 0 < INR (length u)
  ∧ s * np.sum u + INR (length u) * i = np.sum w
  ∧ s * np.dot u u + i * np.sum u = np.dot u w.
Proof.
  intros Hwc H. destruct (polyfit1_ok_inv u w _ H) as [Hne Hlen].
  pose proof (well_conditioned_gram_pos u Hwc) as Hg.
  rewrite (polyfit1_regular u w Hlen Hwc) in H.
  split; [done |]. split; [by apply INR_length_pos |].
  unfold gram in *.
  set (n := INR (length u)) in *. set (sx := np.sum u) in *.
  set (sy := np.sum w) in *. set (sxx := np.dot u u) in *.
  set (sxy := np.dot u w) in *.
  injection H as <- <-. split; field; lra.
Qed.

(** On well-conditioned abscissas no line has a smaller sum of squared
    residuals than the one [polyfit1] returns. *)
Lemma polyfit1_least_squares u w s i s' i' :
  well_conditioned u → np.polyfit1 u w = Ok (s, i) →
  residual_ss s i u w <= residual_ss s' i' u w.
Proof.
  intros Hwc H.
  destruct (polyfit1_normal_equations u w s i Hwc H) as (Hlen & Hn & N1 & N2).
  rewrite !residual_ss_expand by done.
  pose proof (gram_nonneg u) as Hg. unfold gram in Hg.
  set (n := INR (length u)) in *. set (sx := np.sum u) in *.
  set (sy := np.sum w) in *. set (sxx := np.dot u u) in *.
  set (sxy := np.dot u w) in *. set (syy := np.dot w w).
  assert (0 <= n * (sxx * ((s' - s) * (s' - s))
                    + 2 * sx * ((s' - s) * (i' - i))
                    + n * ((i' - i) * (i' - i)))) as Hq.
  { replace (n * (sxx * ((s' - s) * (s' - s))
                  + 2 * sx * ((s' - s) * (i' - i))
                  + n * ((i' - i) * (i' - i))))
      with ((n * (i' - i) + sx * (s' - s)) * (n * (i' - i) + sx * (s' - s))
            + (n * sxx - sx * sx) * ((s' - s) * (s' - s))) by ring.
    pose proof (square_nonneg (n * (i' - i) + sx * (s' - s))).
    pose proof (square_nonneg (s' - s)).
    pose proof (Rmult_le_pos _ _ Hg H1). lra. }
  assert (0 <= sxx * ((s' - s) * (s' - s))
               + 2 * sx * ((s' - s) * (i' - i))
               + n * ((i' - i) * (i' - i))) as Hq'.
  { apply (Rmult_le_reg_l n); [done |]. by rewrite Rmult_0_r. }
  replace (syy - 2 * s' * sxy - 2 * i' * sy + s' * s' * sxx
           + 2 * s' * i' * sx + n * (i' * i'))
    with (syy - 2 * s * sxy - 2 * i * sy + s * s * sxx
          + 2 * s * i * sx + n * (i * i)
          + (sxx * ((s' - s) * (s' - s))
             + 2 * sx * ((s' - s) * (i' - i))
             + n * ((i' - i) * (i' - i)))
          + 2 * (s' - s) * (s * sxx + i * sx - sxy)
          + 2 * (i' - i) * (s * sx + n * i - sy)) by ring.
  rewrite N1, N2. lra.
Qed.

Lemma constant_replicate u (a : R) :
  (∀ t, t ∈ u → t = a) → u = replicate (length u) a.
Proof.
  induction u as [|t u IH]; intros Hall; [done |].
  cbn [length replicate]. rewrite (Hall t) by by left.
  f_equal. apply IH. intros t' Ht'. apply Hall. by right.
Qed.

(** With one abscissa every line through the mean ordinate is a
    least-squares line; [polyfit1] returns the one of least norm in the
    coordinates scaled by the column norms [√Σu²] and [√n]. *)
Lemma polyfit1_minimum_norm u w s i s' i' :
  np.polyfit1 u w = Ok (s, i) → gram u = 0 →
  s' * np.sum u + INR (length u) * i' = np.sum w →
  np.dot u u * (s * s) + INR (length u) * (i * i)
  <= np.dot u u * (s' * s') + INR (length u) * (i' * i').
Proof.
  intros H Hg Hline. destruct (polyfit1_ok_inv u w _ H) as [Hne Hlen].
  pose proof (INR_length_pos u Hne) as Hn.
  set (a := np.sum u / INR (length u)).
  assert (u = replicate (length u) a) as Hu.
  { apply constant_replicate. intros t Ht. by apply gram_zero_constant. }
  assert (a ≠ 0) as Ha.
  { intros Ha. rewrite Hu, Ha in H. destruct (length u) as [|k] eqn:Hk.
    - by destruct u.
    - rewrite polyfit1_eq in H by (done || by rewrite length_replicate, <- Hlen).
      rewrite dot_replicate in H. by rewrite decide_True in H by ring. }
  destruct (length u) as [|k] eqn:Hk; [by destruct u |].
  rewrite Hu in H, Hline |- *.
  rewrite (polyfit1_single_abscissa k a w Ha (eq_sym Hlen)) in H.
  rewrite dot_replicate. rewrite sum_replicate in Hline.
  rewrite <- Hline in H. clear Hline Hg Hu.
  set (n := INR (S k)) in *.
  injection H as <- <-.
  apply (Rmult_le_reg_l (2 * n)); [lra |].
  replace (2 * n * (n * (a * a) * ((s' * (n * a) + n * i') / (2 * (n * a))
                                   * ((s' * (n * a) + n * i') / (2 * (n * a))))
                    + n * ((s' * (n * a) + n * i') / (2 * n)
                           * ((s' * (n * a) + n * i') / (2 * n)))))
    with (n * ((s' * a + i') * (s' * a + i')) * n) by (field; lra).
  replace (2 * n * (n * (a * a) * (s' * s') + n * (i' * i')))
    with (n * ((s' * a + i') * (s' * a + i')) * n
          + n * ((s' * a - i') * (s' * a - i')) * n) by (field; lra).
  pose proof (square_nonneg (s' * a - i')).
  assert (0 <= n * ((s' * a - i') * (s' * a - i')) * n)
    by (apply Rmult_le_pos; [apply Rmult_le_pos |]; lra).
  lra.
Qed.

End least_squares_optimal.

(** ** Logarithms of the constants in the examples *)

Lemma ln_2_pos : 0 < ln 2.
Proof. pose proof ln_lt_2. lra. Qed.

(** [2^38 < 3^25], hence [38·ln 2 < 25·ln 3]: the ratio [ln 3 / ln 2]
    exceeds 1.52. *)
Lemma ln_3_over_ln_2 : 38 * ln 2 < 25 * ln 3.
Proof.
  assert (INR 38 * ln 2 < INR 25 * ln 3) as H.
  { rewrite <- !ln_pow by lra. apply ln_increasing; [apply pow_lt; lra |].
    rewrite !pow_IZR. apply IZR_lt. reflexivity. }
  rewrite !INR_IZR_INZ in H. exact H.
Qed.

Lemma ln_3_lt_2_ln_2 : ln 3 < 2 * ln 2.
Proof.
  replace (2 * ln 2) with (ln (2 * 2)) by (rewrite ln_mult by lra; lra).
  apply ln_increasing; lra.
Qed.

(** The logarithms of the loads of the sample tables pass the rank
    test. *)
Lemma logs_2_3_well_conditioned : well_conditioned (np.log [2; 3]).
Proof.
  pose proof ln_2_pos. pose proof ln_3_over_ln_2. pose proof ln_3_lt_2_ln_2.
  apply (well_conditioned_pair (ln 2) (ln 3) (2 * ln 2)).
  - rewrite Rabs_pos_eq; lra.
  - rewrite Rabs_pos_eq; lra.
  - rewrite Rabs_left by lra. lra.
Qed.

Lemma logs_1_2_well_conditioned : well_conditioned (np.log [1; 2]).
Proof.
  pose proof ln_2_pos. unfold np.log. cbn [map]. rewrite ln_1.
  apply (well_conditioned_pair 0 (ln 2) (ln 2)).
  - rewrite Rabs_R0. lra.
  - rewrite Rabs_pos_eq; lra.
  - rewrite Rabs_left by lra. lra.
Qed.

(** The loads 2 and 2.0000000000000004, the next double after 2, are
    equal for the rank test. *)
Lemma logs_an_ulp_apart_rank_one :
  ¬ np.full_rank (np.log [2; 2 + 2 * float_eps]).
Proof.
  pose proof float_eps_pos as He. pose proof ln_lt_2 as H2.
  unfold np.log. cbn [map].
  replace (2 + 2 * float_eps) with (2 * (1 + float_eps)) by ring.
  rewrite ln_mult by lra.
  assert (0 < ln (1 + float_eps) < float_eps) as [Hd0 Hd1].
  { split.
    - rewrite <- ln_1. apply ln_increasing; lra.
    - rewrite <- (ln_exp float_eps) at 2. apply ln_increasing; [lra |].
      apply exp_ineq1. lra. }
  set (d := ln (1 + float_eps)) in *.
  apply pair_rank_one.
  - pose proof (square_pos (ln 2)). pose proof (square_nonneg (ln 2 + d)).
    assert (ln 2 ≠ 0) by lra. intuition lra.
  - replace ((ln 2 - (ln 2 + d)) * (ln 2 - (ln 2 + d))) with (d * d) by ring.
    assert (d * d <= float_eps * float_eps) by nra.
    assert (/ 4 <= ln 2 * ln 2) by nra.
    pose proof (square_nonneg (ln 2 + d)).
    assert (0 <= float_eps * float_eps) by nra.
    nra.
Qed.

Lemma one_above_round_to_zero : round_to_zero < 1.
Proof. pose proof round_to_zero_small. lra. Qed.


(** Evaluates the positivity mask on arrays of numerals. *)
Ltac eval_mask :=
  unfold positive_x, positive_y, np.gt0; cbn [map zip_with];
  repeat first [ rewrite bool_decide_eq_true_2 by lra
               | rewrite bool_decide_eq_false_2 by lra ];
  cbn [andb np.select].

(** ** The program monad *)

Lemma io_eta {A} (m : io A) : IO (printed m) (outcome m) = m.
Proof. by destruct m. Qed.

Section io_laws.
Context {A B : Type}.

Lemma bind_lift_ok (a : A) (k : A → io B) : (lift (Ok a) ≫= k) = k a.
Proof. unfold mbind, io_bind, lift. simpl. apply io_eta. Qed.

Lemma bind_lift_raise (e : exn) (k : A → io B) :
  (lift (Raise e) ≫= k) = IO [] (Raise e).
Proof. reflexivity. Qed.

Lemma bind_print (o : output) (k : unit → io B) :
  (print o ≫= k) = IO (o :: printed (k ())) (outcome (k ())).
Proof. reflexivity. Qed.

Lemma bind_outcome_raise (m : io A) (k : A → io B) (e : exn) :
  outcome m = Raise e → outcome (m ≫= k) = Raise e.
Proof. intros H. unfold mbind, io_bind. by rewrite H. Qed.

Lemma bind_ok (m : io A) (k : A → io B) (a : A) :
  outcome m = Ok a →
  (m ≫= k) = IO (printed m ++ printed (k a)) (outcome (k a)).
Proof. intros H. unfold mbind, io_bind. by rewrite H. Qed.

End io_laws.

(** ** The build loop, one iteration at a time *)

Section build_steps.
Context (data : gmap string (list R)) (x : list R).
Implicit Types (names rest : list string) (coeff : gmap string (R * R)).

Lemma build_loop_missing name rest coeff :
  data !! name = None →
  build_loop data x (name :: rest) coeff
  = IO (MissingColumn name :: printed (build_loop data x rest coeff))
       (outcome (build_loop data x rest coeff)).
Proof. intros H. cbn [build_loop]. rewrite H. apply bind_print. Qed.

Lemma build_loop_fitted name rest coeff y r :
  data !! name = Some y → power_law_fit x y = Ok r →
  build_loop data x (name :: rest) coeff
  = build_loop data x rest (<[lower name := r]> coeff).
Proof.
  intros H Hfit. cbn [build_loop]. rewrite H, Hfit. by rewrite bind_lift_ok.
Qed.

Lemma build_loop_raised name rest coeff y e :
  data !! name = Some y → power_law_fit x y = Raise e →
  build_loop data x (name :: rest) coeff = IO [] (Raise e).
Proof. intros H Hfit. cbn [build_loop]. by rewrite H, Hfit. Qed.

Lemma build_with_column names :
  data !! independent = Some x →
  build data names = build_loop data x names ∅.
Proof.
  intros H. unfold build, subscript. rewrite H. by rewrite bind_lift_ok.
Qed.

End build_steps.

(** ** The build loop as a whole *)

Section build_loop_spec.
Context (data : gmap string (list R)) (x : list R).
Implicit Types (names : list string) (coeff : gmap string (R * R)).

Lemma present_cons_some name names y :
  data !! name = Some y → present data (name :: names) = name :: present data names.
Proof. intros H. unfold present. rewrite filter_cons_True; [done | by eexists]. Qed.

Lemma present_cons_none name names :
  data !! name = None → present data (name :: names) = present data names.
Proof.
  intros H. unfold present. rewrite filter_cons_False; [done |].
  rewrite H. by intros [? ?].
Qed.

Lemma absent_cons_some name names y :
  data !! name = Some y → absent data (name :: names) = absent data names.
Proof.
  intros H. unfold absent. rewrite filter_cons_False; [done |].
  intros Hn. apply Hn. by eexists.
Qed.

Lemma absent_cons_none name names :
  data !! name = None → absent data (name :: names) = name :: absent data names.
Proof.
  intros H. unfold absent. rewrite filter_cons_True; [done |].
  rewrite H. by intros [? ?].
Qed.

(** If every fit of a present column returns, the loop returns. *)
Lemma build_loop_returns names coeff :
  (∀ n y, n ∈ names → data !! n = Some y → is_Ok (power_law_fit x y)) →
  ∃ coeff', outcome (build_loop data x names coeff) = Ok coeff'.
Proof.
  revert coeff. induction names as [|name names IH]; intros coeff Hfits.
  - by eexists.
  - destruct (data !! name) as [y|] eqn:Hcol.
    + destruct (Hfits name y) as [r Hr]; [by left | done |].
      rewrite (build_loop_fitted _ _ _ _ _ _ _ Hcol Hr).
      apply IH. intros n y' Hn. apply Hfits. by right.
    + rewrite (build_loop_missing _ _ _ _ _ Hcol). cbn [outcome].
      apply IH. intros n y' Hn. apply Hfits. by right.
Qed.

(** What a returning loop printed: one notice per absent name. *)
Lemma build_loop_printed names coeff coeff' :
  outcome (build_loop data x names coeff) = Ok coeff' →
  printed (build_loop data x names coeff) = MissingColumn <$> absent data names.
Proof.
  revert coeff. induction names as [|name names IH]; intros coeff Hok.
  - done.
  - destruct (data !! name) as [y|] eqn:Hcol.
    + rewrite (absent_cons_some _ _ _ Hcol).
      destruct (power_law_fit x y) as [r|e] eqn:Hr.
      * rewrite (build_loop_fitted _ _ _ _ _ _ _ Hcol Hr) in *. by apply IH.
      * by rewrite (build_loop_raised _ _ _ _ _ _ _ Hcol Hr) in Hok.
    + rewrite (absent_cons_none _ _ Hcol).
      rewrite (build_loop_missing _ _ _ _ _ Hcol) in *. cbn [outcome printed] in *.
      rewrite fmap_cons. f_equal. by apply IH.
Qed.

(** The keys of the table after the loop. *)
Lemma build_loop_dom names coeff coeff' :
  outcome (build_loop data x names coeff) = Ok coeff' →
  dom coeff' = dom coeff ∪ list_to_set (lower <$> present data names).
Proof.
  revert coeff. induction names as [|name names IH]; intros coeff Hok.
  - cbn in Hok. injection Hok as <-. cbn. by rewrite (right_id_L ∅ (∪)).
  - destruct (data !! name) as [y|] eqn:Hcol.
    + rewrite (present_cons_some _ _ _ Hcol).
      destruct (power_law_fit x y) as [r|e] eqn:Hr.
      * rewrite (build_loop_fitted _ _ _ _ _ _ _ Hcol Hr) in Hok.
        rewrite (IH _ Hok), dom_insert_L, fmap_cons. cbn [list_to_set foldr].
        by rewrite (comm_L (∪) {[lower name]} (dom coeff)), (assoc_L (∪)).
      * by rewrite (build_loop_raised _ _ _ _ _ _ _ Hcol Hr) in Hok.
    + rewrite (present_cons_none _ _ Hcol).
      rewrite (build_loop_missing _ _ _ _ _ Hcol) in Hok. by apply IH.
Qed.

(** A key that no present name lower-cases to keeps its entry. *)
Lemma build_loop_untouched names coeff coeff' k :
  outcome (build_loop data x names coeff) = Ok coeff' →
  k ∉ lower <$> present data names →
  coeff' !! k = coeff !! k.
Proof.
  revert coeff. induction names as [|name names IH]; intros coeff Hok Hk.
  - cbn in Hok. by injection Hok as <-.
  - destruct (data !! name) as [y|] eqn:Hcol.
    + rewrite (present_cons_some _ _ _ Hcol), fmap_cons in Hk.
      apply not_elem_of_cons in Hk as [Hne Hk].
      destruct (power_law_fit x y) as [r|e] eqn:Hr.
      * rewrite (build_loop_fitted _ _ _ _ _ _ _ Hcol Hr) in Hok.
        rewrite (IH _ Hok Hk). by apply lookup_insert_ne.
      * by rewrite (build_loop_raised _ _ _ _ _ _ _ Hcol Hr) in Hok.
    + rewrite (present_cons_none _ _ Hcol) in Hk.
      rewrite (build_loop_missing _ _ _ _ _ Hcol) in Hok. by apply IH.
Qed.

(** The entry of a present name is the result of its fit, unless a
    different present name has the same lower-case form. *)
Lemma build_loop_entry names coeff coeff' name y :
  outcome (build_loop data x names coeff) = Ok coeff' →
  name ∈ names → data !! name = Some y →
  (∀ n, n ∈ present data names → lower n = lower name → n = name) →
  ∃ r, power_law_fit x y = Ok r ∧ coeff' !! lower name = Some r.
Proof.
  revert coeff. induction names as [|n names IH]; intros coeff Hok Hin Hcol Huniq.
  - by apply elem_of_nil in Hin.
  - destruct (data !! n) as [y'|] eqn:Hn.
    + rewrite (present_cons_some _ _ _ Hn) in Huniq.
      destruct (power_law_fit x y') as [r|e] eqn:Hr.
      * rewrite (build_loop_fitted _ _ _ _ _ _ _ Hn Hr) in Hok.
        destruct (decide (name ∈ names)) as [Hin'|Hnotin].
        { apply (IH _ Hok Hin' Hcol). intros m Hm. apply Huniq. by right. }
        apply elem_of_cons in Hin as [->|Hin]; [| done].
        assert (y' = y) as -> by congruence.
        exists r. split; [done |].
        rewrite (build_loop_untouched _ _ _ _ Hok); [by apply lookup_insert_eq |].
        intros Hk. apply list_elem_of_fmap in Hk as (m & Hlow & Hm).
        assert (m = n) as -> by (apply Huniq; [by right | done]).
        apply Hnotin. unfold present in Hm.
        by apply list_elem_of_filter in Hm as [_ ?].
      * by rewrite (build_loop_raised _ _ _ _ _ _ _ Hn Hr) in Hok.
    + rewrite (present_cons_none _ _ Hn) in Huniq.
      rewrite (build_loop_missing _ _ _ _ _ Hn) in Hok. cbn [outcome] in Hok.
      apply (IH _ Hok); [| done | done].
      apply elem_of_cons in Hin as [->|Hin]; [congruence | done].
Qed.

(** No entry the loop adds has a negative first coefficient. *)
Lemma build_loop_nonneg names coeff coeff' :
  map_Forall (λ _ r, 0 <= r.1) coeff →
  outcome (build_loop data x names coeff) = Ok coeff' →
  map_Forall (λ _ r, 0 <= r.1) coeff'.
Proof.
  revert coeff. induction names as [|name names IH]; intros coeff Hpos Hok.
  - cbn in Hok. by injection Hok as <-.
  - destruct (data !! name) as [y|] eqn:Hcol.
    + destruct (power_law_fit x y) as [[a b]|e] eqn:Hr.
      * rewrite (build_loop_fitted _ _ _ _ _ _ _ Hcol Hr) in Hok.
        apply (IH (<[lower name := (a, b)]> coeff)); [| done].
        apply map_Forall_insert_2; [| done].
        apply (power_law_fit_nonneg x y a b Hr).
      * by rewrite (build_loop_raised _ _ _ _ _ _ _ Hcol Hr) in Hok.
    + rewrite (build_loop_missing _ _ _ _ _ Hcol) in Hok. by apply (IH coeff).
Qed.

End build_loop_spec.

(** ** The build loop: where it stops and which fit an entry holds *)

Section build_more.
Context (data : gmap string (list R)) (x : list R).
Implicit Types (names : list string) (coeff : gmap string (R * R)).

(** The loop over a concatenation runs the second part on the table the
    first part returned. *)
Lemma build_loop_app_ok names1 names2 coeff coeff' :
  outcome (build_loop data x (names1 ++ names2) coeff) = Ok coeff' →
  ∃ coeff1, outcome (build_loop data x names1 coeff) = Ok coeff1
            ∧ outcome (build_loop data x names2 coeff1) = Ok coeff'.
Proof.
  revert coeff. induction names1 as [|n names1 IH]; intros coeff Hok.
  - by exists coeff.
  - rewrite <- app_comm_cons in Hok.
    destruct (data !! n) as [y|] eqn:Hn.
    + destruct (power_law_fit x y) as [r|e] eqn:Hr.
      * rewrite (build_loop_fitted _ _ _ _ _ _ _ Hn Hr) in Hok.
        rewrite (build_loop_fitted _ _ _ _ _ _ _ Hn Hr). by apply IH.
      * by rewrite (build_loop_raised _ _ _ _ _ _ _ Hn Hr) in Hok.
    + rewrite (build_loop_missing _ _ _ _ _ Hn) in Hok.
      rewrite (build_loop_missing _ _ _ _ _ Hn). cbn [outcome] in *.
      by apply IH.
Qed.

(** The loop up to the first fit that raises. *)
Lemma build_loop_first_failure names1 name names2 coeff y e :
  (∀ n y', n ∈ names1 → data !! n = Some y' → is_Ok (power_law_fit x y')) →
  data !! name = Some y → power_law_fit x y = Raise e →
  build_loop data x (names1 ++ name :: names2) coeff
  = IO (MissingColumn <$> absent data names1) (Raise e).
Proof.
  intros Hfits Hcol Hfit. revert coeff Hfits.
  induction names1 as [|n names1 IH]; intros coeff Hfits.
  - apply (build_loop_raised _ _ _ _ _ _ _ Hcol Hfit).
  - rewrite <- app_comm_cons.
    assert (∀ n' y', n' ∈ names1 → data !! n' = Some y'
                     → is_Ok (power_law_fit x y')) as Hrest.
    { intros n' y' Hin. apply Hfits. by right. }
    destruct (data !! n) as [y0|] eqn:Hn.
    + destruct (Hfits n y0) as [r Hr]; [by left | done |].
      rewrite (build_loop_fitted _ _ _ _ _ _ _ Hn Hr).
      rewrite (absent_cons_some _ _ _ _ Hn). by apply IH.
    + rewrite (build_loop_missing _ _ _ _ _ Hn), (absent_cons_none _ _ _ Hn).
      by rewrite (IH coeff Hrest).
Qed.
End build_more.

(** ** [calc] and the prediction loop *)

Section prediction.
Context (coeff : gmap string (R * R)).
Implicit Types (names : list string) (key : string).

Lemma Rpower_pos (x_val b : R) : 0 < Rpower x_val b.
Proof. unfold Rpower. apply exp_pos. Qed.

(** A positive base whose power is within the range. *)
Lemma math_pow_in_range (x_val b : R) :
  0 < x_val → round_to_zero < Rpower x_val b → Rpower x_val b < round_to_inf →
  math_pow x_val b = Ok (Rpower x_val b).
Proof.
  intros Hx Hlo Hhi. unfold math_pow. destruct (decide (b = 0)) as [->|Hb].
  - by rewrite Rpower_O.
  - rewrite decide_True by done. pose proof (Rpower_pos x_val b).
    apply math_range_ok; rewrite Rabs_pos_eq by lra; done.
Qed.

Lemma math_pow_moderate (x_val b : R) :
  0 < x_val → / 1000000 <= Rpower x_val b <= 1000000 →
  math_pow x_val b = Ok (Rpower x_val b).
Proof.
  intros Hx [Hlo Hhi].
  pose proof round_to_zero_small. pose proof round_to_inf_large.
  apply math_pow_in_range; [done | lra | lra].
Qed.

(** A positive base whose power is too large for a double. *)
Lemma math_pow_overflow (x_val b : R) :
  0 < x_val → round_to_inf <= Rpower x_val b →
  math_pow x_val b = Raise OverflowError.
Proof.
  intros Hx Hhi. pose proof round_to_inf_large.
  unfold math_pow. destruct (decide (b = 0)) as [->|Hb].
  - rewrite Rpower_O in Hhi by done. lra.
  - rewrite decide_True by done. pose proof (Rpower_pos x_val b).
    apply math_range_overflow. by rewrite Rabs_pos_eq by lra.
Qed.

(** A positive base whose power is too small for a double. *)
Lemma math_pow_underflow (x_val b : R) :
  0 < x_val → Rpower x_val b <= round_to_zero →
  math_pow x_val b = Ok 0.
Proof.
  intros Hx Hlo. pose proof round_to_zero_small.
  unfold math_pow. destruct (decide (b = 0)) as [->|Hb].
  - rewrite Rpower_O in Hlo by done. lra.
  - rewrite decide_True by done. pose proof (Rpower_pos x_val b).
    apply math_range_underflow. by rewrite Rabs_pos_eq by lra.
Qed.

Lemma math_pow_zero_negative (b : R) : b < 0 → math_pow 0 b = Raise ValueError.
Proof.
  intros Hb. unfold math_pow.
  rewrite decide_False by lra. rewrite decide_False by lra.
  rewrite decide_True by done. by rewrite decide_False by lra.
Qed.

(** At zero [math.pow] returns or raises ValueError, nothing else. *)
Lemma math_pow_zero_cases (b : R) :
  is_Ok (math_pow 0 b) ∨ math_pow 0 b = Raise ValueError.
Proof.
  unfold math_pow. destruct (decide (b = 0)); [left; by eexists |].
  rewrite decide_False by lra. rewrite decide_True by done.
  case_decide; [left; by eexists | by right].
Qed.

(** [math.pow] returns, or raises ValueError or OverflowError. *)
Lemma math_pow_cases (x_val b : R) :
  is_Ok (math_pow x_val b)
  ∨ math_pow x_val b = Raise ValueError
  ∨ math_pow x_val b = Raise OverflowError.
Proof.
  unfold math_pow.
  repeat case_decide;
    first [ left; eexists; reflexivity
          | right; left; reflexivity
          | destruct (math_range_cases (Rpower x_val b)) as [?|?]; by auto
          | destruct (math_range_cases (powerRZ x_val (Int_part b))) as [?|?];
            by auto ].
Qed.

Lemma calc_entry key a b x_val :
  coeff !! key = Some (a, b) →
  calc coeff key x_val = (p ← math_pow x_val b; Ok (a * p)).
Proof. intros H. unfold calc, subscript. by rewrite H. Qed.

Lemma predict_loop_skip name names x_val :
  coeff !! lower name = None →
  predict_loop coeff (name :: names) x_val = predict_loop coeff names x_val.
Proof. intros H. cbn [predict_loop]. by rewrite H. Qed.

Lemma predict_loop_print name names x_val r y_val :
  coeff !! lower name = Some r →
  calc coeff (lower name) x_val = Ok y_val →
  predict_loop coeff (name :: names) x_val
  = IO (Prediction (lower name) y_val (suffix_of (lower name))
          :: printed (predict_loop coeff names x_val))
       (outcome (predict_loop coeff names x_val)).
Proof.
  intros H Hc. cbn [predict_loop]. rewrite H, Hc.
  by rewrite bind_lift_ok, bind_print.
Qed.

Lemma predict_loop_raise name names x_val r e :
  coeff !! lower name = Some r →
  calc coeff (lower name) x_val = Raise e →
  predict_loop coeff (name :: names) x_val = IO [] (Raise e).
Proof. intros H Hc. cbn [predict_loop]. by rewrite H, Hc. Qed.

(** When [calc] returns for every key that has an entry, the loop
    returns and prints one line per such key, in the order of the
    names. *)
Lemma predict_loop_keys names x_val :
  (∀ k, k ∈ known_keys coeff names → is_Ok (calc coeff k x_val)) →
  ∃ pairs : list (string * R),
    predict_loop coeff names x_val = IO (prediction_line <$> pairs) (Ok ())
    ∧ pairs.*1 = known_keys coeff names.
Proof.
  unfold known_keys. induction names as [|name names IH]; intros Hcalc.
  - by exists [].
  - rewrite fmap_cons in *.
    destruct (coeff !! lower name) as [r|] eqn:Hk.
    + rewrite filter_cons_True in * by (by rewrite Hk).
      destruct (Hcalc (lower name)) as [y_val Hy]; [by left |].
      destruct IH as (pairs & Hloop & Hkeys).
      { intros k Hin. apply Hcalc. by right. }
      exists ((lower name, y_val) :: pairs).
      rewrite (predict_loop_print _ _ _ _ _ Hk Hy), Hloop.
      split; [done | by rewrite fmap_cons, Hkeys].
    + rewrite filter_cons_False in * by (rewrite Hk; by intros [? ?]).
      rewrite (predict_loop_skip _ _ _ Hk). by apply IH.
Qed.

(** At load zero a known key with a negative exponent makes the loop
    raise ValueError. *)
Lemma predict_loop_zero_raises names name a b :
  name ∈ names → coeff !! lower name = Some (a, b) → b < 0 →
  outcome (predict_loop coeff names 0) = Raise ValueError.
Proof.
  intros Hin Hk Hb. induction names as [|n names IH].
  - by apply elem_of_nil in Hin.
  - destruct (coeff !! lower n) as [[a' b']|] eqn:Hn.
    + pose proof (calc_entry _ _ _ 0 Hn) as Hc.
      destruct (math_pow_zero_cases b') as [[p Hp]|Hp]; rewrite Hp in Hc.
      * rewrite (predict_loop_print _ _ _ _ _ Hn Hc). cbn [outcome].
        apply IH. apply elem_of_cons in Hin as [->|Hin]; [| done].
        rewrite Hk in Hn. injection Hn as <- <-.
        rewrite (math_pow_zero_negative b Hb) in Hp. done.
      * by rewrite (predict_loop_raise _ _ _ _ _ Hn Hc).
    + rewrite (predict_loop_skip _ _ _ Hn).
      apply IH. apply elem_of_cons in Hin as [->|Hin]; [congruence | done].
Qed.

End prediction.

(** ** The serving loop and [main] *)

Section serving.
Implicit Types (coeff : gmap string (R * R)) (names : list string).

(** An exception in the prediction loop leaves the [while] loop. *)
Lemma serve_number_raises coeff names x_val rest e :
  outcome (predict_loop coeff names x_val) = Raise e →
  outcome (serve coeff names (Number x_val :: rest)) = Raise e.
Proof.
  intros H. cbn [serve]. rewrite bind_print. cbn [outcome].
  by apply bind_outcome_raise.
Qed.

(** After a successful build, [main] ends as the serving loop does. *)
Lemma main_with_outcome names data inputs coeff :
  outcome (build data names) = Ok coeff →
  outcome (main_with names data inputs) = outcome (serve coeff names inputs).
Proof.
  intros Hb. unfold main_with. rewrite (bind_ok _ _ _ Hb). cbn [outcome].
  rewrite !bind_print. cbn [outcome].
  destruct (outcome (serve coeff names inputs)) as [[]|e] eqn:Hs.
  - by rewrite (bind_ok _ _ _ Hs).
  - by apply bind_outcome_raise.
Qed.

(** An exception in the build leaves [main]. *)
Lemma main_with_build_raises names data inputs e :
  outcome (build data names) = Raise e →
  outcome (main_with names data inputs) = Raise e.
Proof. intros Hb. unfold main_with. by apply bind_outcome_raise. Qed.

End serving.

(** ** The sample tables *)

Lemma Rpower_2 (v : R) : 0 < v → Rpower v 2 = v * v.
Proof.
  intros Hv. replace 2 with (INR 2) by (simpl; lra).
  rewrite Rpower_pow by done. simpl. lra.
Qed.

(** The samples [(2, 4)] and [(3, 9)] of [y = x²] are fit by [a = 1],
    [b = 2]. *)
Lemma fit_squares : power_law_fit [2; 3] [4; 9] = Ok (1, 2).
Proof.
  assert ([4; 9] = map (λ v, 1 * Rpower v 2) [2; 3]) as ->.
  { cbn [map]. rewrite !Rpower_2 by lra. repeat f_equal; lra. }
  apply (power_law_recovery 1 2 [2; 3]).
  - apply one_above_round_to_zero.
  - repeat constructor; lra.
  - apply logs_2_3_well_conditioned.
Qed.

(** No pair of [(2, -1)], [(3, 0)] survives the mask. *)
Lemma fit_nonpositive : power_law_fit [2; 3] [-1; 0] = Raise TypeError.
Proof.
  rewrite power_law_fit_eq by reflexivity. eval_mask. reflexivity.
Qed.

(** The samples [(1, 2)] and [(2, 1)] of [y = 2 / x] are fit by [a = 2],
    [b = -1]. *)
Lemma fit_decay : power_law_fit [1; 2] [2; 1] = Ok (2, -1).
Proof.
  assert (∀ v, 0 < v → Rpower v (-1) = / v) as Hinv.
  { intros v Hv. replace (-1) with (Ropp 1) by lra.
    by rewrite Rpower_Ropp, Rpower_1. }
  assert ([2; 1] = map (λ v, 2 * Rpower v (-1)) [1; 2]) as ->.
  { cbn [map]. rewrite !Hinv by lra. repeat f_equal; field. }
  apply (power_law_recovery 2 (-1) [1; 2]).
  - pose proof one_above_round_to_zero. lra.
  - repeat constructor; lra.
  - apply logs_1_2_well_conditioned.
Qed.

(** The samples [(1, 1)] and [(2, 4)] of [y = x²]. *)
Lemma fit_squares_from_one : power_law_fit [1; 2] [1; 4] = Ok (1, 2).
Proof.
  assert ([1; 4] = map (λ v, 1 * Rpower v 2) [1; 2]) as ->.
  { cbn [map]. rewrite !Rpower_2 by lra. repeat f_equal; lra. }
  apply (power_law_recovery 1 2 [1; 2]).
  - apply one_above_round_to_zero.
  - repeat constructor; lra.
  - apply logs_1_2_well_conditioned.
Qed.

Lemma build_sample_decay :
  build sample_decay targets
  = IO [MissingColumn "RX"; MissingColumn "TX"; MissingColumn "Read";
        MissingColumn "Write"]
       (Ok {["cpu load" := (2, -1)]}).
Proof.
  rewrite (build_with_column sample_decay [1; 2]) by reflexivity.
  unfold targets.
  rewrite !build_loop_missing by reflexivity.
  rewrite (build_loop_fitted sample_decay [1; 2] "CPU load" _ _ [2; 1] (2, -1))
    by (reflexivity || apply fit_decay).
  cbn. by rewrite insert_empty.
Qed.

(** With the entry ["cpu load" ↦ (2, -1)], typing 0 at the prompt
    prints the header and then ends the loop with ValueError; the blank
    line that would end the program normally is never read. *)
Lemma serve_crashes_at_zero :
  serve {["cpu load" := (2, -1)]} targets [Number 0; Blank]
  = IO [LoadHeader 0] (Raise ValueError).
Proof.
  assert (calc {["cpu load" := (2, -1)]} (lower "CPU load") 0 = Raise ValueError)
    as Hc.
  { rewrite (calc_entry _ _ 2 (-1) 0) by reflexivity.
    by rewrite math_pow_zero_negative by lra. }
  cbn [serve]. unfold targets.
  rewrite !predict_loop_skip by reflexivity.
  by rewrite (predict_loop_raise _ _ _ _ (2, -1) ValueError) by done.
Qed.

(** [10^400] is beyond the doubles on both sides: it rounds to an
    infinity, and its inverse rounds to zero. *)
Lemma pow_10_400_overflows : round_to_inf <= 10 ^ 400.
Proof.
  unfold round_to_inf. rewrite pow_IZR. apply IZR_le.
  apply Zle_bool_imp_le. vm_compute. reflexivity.
Qed.

Lemma inv_pow_10_400_underflows : / 10 ^ 400 <= round_to_zero.
Proof.
  unfold round_to_zero. apply Rinv_le_contravar.
  - apply IZR_lt. reflexivity.
  - rewrite pow_IZR. apply IZR_le.
    apply Zle_bool_imp_le. vm_compute. reflexivity.
Qed.

(** Samples of [y = a·x^b] with an [a] too small for a double: the fit
    finds [b], and [np.exp] returns 0.0 for [a]. *)
Lemma power_law_underflow a b x :
  0 < a → a <= round_to_zero →
  Forall (λ v, 0 < v) x → well_conditioned (np.log x) →
  power_law_fit x (map (λ v, a * Rpower v b) x) = Ok (0, b).
Proof.
  intros Ha Hlo Hx Hwc.
  rewrite power_law_fit_eq by (by rewrite length_map).
  destruct (positive_all x (map (λ v, a * Rpower v b) x)) as [-> ->].
  { by rewrite length_map. }
  { done. }
  { apply Forall_map, Forall_true. intros v. by apply power_law_pos. }
  rewrite log_power_law by done.
  rewrite (polyfit1_line (ln a) b (np.log x) Hwc).
  cbn. rewrite np_exp_underflow; [done |]. by rewrite exp_ln.
Qed.

Lemma ln_10_pos : 0 < ln 10.
Proof. rewrite <- ln_1. apply ln_increasing; lra. Qed.

Lemma logs_1e100_1e200_well_conditioned :
  well_conditioned (np.log [10 ^ 100; 10 ^ 200]).
Proof.
  pose proof ln_10_pos. unfold np.log. cbn [map].
  rewrite !ln_pow by lra.
  assert (INR 100 = 100) as -> by (rewrite INR_IZR_INZ; reflexivity).
  assert (INR 200 = 200) as -> by (rewrite INR_IZR_INZ; reflexivity).
  apply (well_conditioned_pair _ _ (200 * ln 10)).
  - rewrite Rabs_pos_eq; lra.
  - rewrite Rabs_pos_eq; lra.
  - rewrite Rabs_left by lra. lra.
Qed.

(** With the entry ["cpu load" ↦ (2, 1)], the load 10 gives 20. *)
Lemma calc_cpu_load_10 :
  calc {["cpu load" := (2, 1)]} "cpu load" 10 = Ok 20.
Proof.
  rewrite (calc_entry _ _ 2 1 10) by reflexivity.
  rewrite math_pow_moderate.
  - rewrite Rpower_1 by lra. cbn. f_equal; lra.
  - lra.
  - rewrite Rpower_1 by lra. lra.
Qed.

Lemma predict_cpu_load_10 :
  predict_loop {["cpu load" := (2, 1)]} targets 10
  = IO [Prediction "cpu load" 20 " CPU"] (Ok ()).
Proof.
  unfold targets. rewrite !predict_loop_skip by reflexivity.
  by rewrite (predict_loop_print _ "CPU load" [] 10 (2, 1) 20)
    by (reflexivity || apply calc_cpu_load_10).
Qed.

(** * The claims *)




(** C2 (amended).  For a stored pair [(a, b)] and a positive [x] whose
    power [x^b] is in the range of the normal doubles, the product
    [a·x^b] not exceeding the largest double, [calc] returns [a·x^b];
    with ["cpu load" ↦ (2, 1)] and [x = 10] this is 20.  When the power
    is too large for a double [math.pow] raises OverflowError, and when
    it is too small [math.pow] returns 0.0 and so does [calc]. *)
Theorem calc_is_power_law (coeff : gmap string (R * R)) (key : string)
    (a b x_val : R) :
  coeff !! key = Some (a, b) → 0 < x_val →
  (normal_double (Rpower x_val b) → Rabs (a * Rpower x_val b) <= float_max →
     calc coeff key x_val = Ok (a * Rpower x_val b))
  ∧ (round_to_inf <= Rpower x_val b →
     calc coeff key x_val = Raise OverflowError)
  ∧ (Rpower x_val b <= round_to_zero → calc coeff key x_val = Ok 0).
Proof.
  intros Hk Hx. rewrite (calc_entry _ _ _ _ _ Hk). split; [| split].
  - intros Hp _. destruct (normal_double_range _ Hp) as [Hlo Hhi].
    by rewrite math_pow_in_range.
  - intros Hhi. by rewrite math_pow_overflow.
  - intros Hlo. rewrite math_pow_underflow by done. cbn. f_equal. ring.
Qed.

Lemma calc_is_power_law_witness :
  calc {["cpu load" := (2, 1)]} "cpu load" 10 = Ok 20.
Proof.
  pose proof float_max_large.
  destruct (calc_is_power_law {["cpu load" := (2, 1)]} "cpu load" 2 1 10)
    as (Hin & _ & _).
  - apply lookup_singleton_eq.
  - lra.
  - rewrite Hin; rewrite Rpower_1 by lra.
    + f_equal; lra.
    + apply normal_double_moderate. lra.
    + rewrite Rabs_pos_eq; lra.
Defined.

(** C2 as stated fails at a large load: with the entry
    ["cpu load" ↦ (1, 2)] and [x = 10^200] the power [10^400] is too
    large for a double and [calc] raises OverflowError. *)
Lemma calc_overflows_at_large_load :
  0 < 10 ^ 200
  ∧ calc {["cpu load" := (1, 2)]} "cpu load" (10 ^ 200) = Raise OverflowError.
Proof.
  assert (0 < 10 ^ 200) as Hpos by (apply pow_lt; lra).
  split; [done |].
  rewrite (calc_entry _ _ 1 2 (10 ^ 200)) by reflexivity.
  rewrite math_pow_overflow; [done | done |].
  rewrite Rpower_2 by done. rewrite <- pow_add.
  apply pow_10_400_overflows.
Qed.

(** C3.  For parallel arrays, fitting the full data is fitting the pairs
    whose two coordinates are positive: the other pairs are dropped before
    any logarithm is taken and change neither the result nor whether an
    exception is raised. *)
Theorem fit_ignores_nonpositive_pairs (x y : list R) :
  length x = length y →
  power_law_fit x y = power_law_fit (positive_x x y) (positive_y x y).
Proof.
  intros Hlen.
  rewrite (power_law_fit_eq x y Hlen).
  rewrite (power_law_fit_eq _ _ (positive_length x y)).
  by rewrite positive_x_idem, positive_y_idem.
Qed.

Lemma fit_ignores_nonpositive_pairs_witness :
  power_law_fit [-1; 2; 3; 4] [5; 4; 9; 16] = power_law_fit [2; 3; 4] [4; 9; 16].
Proof.
  assert (positive_x [-1; 2; 3; 4] [5; 4; 9; 16] = [2; 3; 4]) as Hx
    by (eval_mask; reflexivity).
  assert (positive_y [-1; 2; 3; 4] [5; 4; 9; 16] = [4; 9; 16]) as Hy
    by (eval_mask; reflexivity).
  pose proof (fit_ignores_nonpositive_pairs [-1; 2; 3; 4] [5; 4; 9; 16]
                eq_refl) as H.
  rewrite Hx, Hy in H. exact H.
Defined.

(** C4 (amended).  When no sample pair survives the positivity mask,
    [power_law_fit] fails: [np.polyfit] raises TypeError on the empty
    vector. *)
Theorem fit_without_survivors_raises (x y : list R) :
  length x = length y →
  positive_x x y = [] →
  power_law_fit x y = Raise TypeError.
Proof.
  intros Hlen Hnone. rewrite (power_law_fit_eq x y Hlen), Hnone. reflexivity.
Qed.

Lemma fit_without_survivors_raises_witness :
  power_law_fit [-1; 0] [5; 7] = Raise TypeError.
Proof.
  apply (fit_without_survivors_raises [-1; 0] [5; 7]).
  - reflexivity.
  - eval_mask. reflexivity.
Defined.

(** C4 as stated fails with one survivor: the single pair [(2, 4)] is
    fewer than two points, and the fit returns [(2, 1)] instead of
    failing. *)
Lemma fit_one_survivor_returns :
  length (positive_x [2] [4]) = 1%nat ∧ power_law_fit [2] [4] = Ok (2, 1).
Proof.
  split.
  - eval_mask. reflexivity.
  - change [2] with (replicate 1 2).
    rewrite (fit_single_abscissa 0 2 [4]);
      [| lra | lra | reflexivity | repeat constructor; lra].
    assert (ln 4 = 2 * ln 2) as H4.
    { replace 4 with (2 * 2) by lra. rewrite ln_mult by lra. lra. }
    pose proof ln_2_pos.
    unfold np.log. cbn [map]. rewrite sum_cons. unfold np.sum. cbn [foldr].
    replace (INR 1) with 1 by (simpl; lra). rewrite H4.
    f_equal. f_equal.
    + replace ((2 * ln 2 + 0) / (2 * 1)) with (ln 2) by (field; lra).
      apply np_exp_ln. pose proof one_above_round_to_zero. lra.
    + field. lra.
Qed.

(** C5 (amended).  A fit that raises is not confined to its metric: at
    the first target whose fit raises, the exception leaves the loop of
    lines 62-66, so the build produces no table, the targets after it are
    not fit, and [main] ends with that exception, having printed only the
    notices of the absent targets before it. *)
Theorem failing_fit_aborts_build (data : gmap string (list R)) (x : list R)
    (names1 : list string) (name : string) (names2 : list string)
    (y : list R) (e : exn) (inputs : list line) :
  data !! independent = Some x →
  (∀ n y', n ∈ names1 → data !! n = Some y' → is_Ok (power_law_fit x y')) →
  data !! name = Some y → power_law_fit x y = Raise e →
  build data (names1 ++ name :: names2)
  = IO (MissingColumn <$> absent data names1) (Raise e)
  ∧ main_with (names1 ++ name :: names2) data inputs
    = IO (MissingColumn <$> absent data names1) (Raise e).
Proof.
  intros Hx Hfits Hcol Hfit.
  assert (build data (names1 ++ name :: names2)
          = IO (MissingColumn <$> absent data names1) (Raise e)) as Hb.
  { rewrite (build_with_column data x _ Hx).
    by apply (build_loop_first_failure data x names1 name names2 ∅ y e). }
  split; [done |]. unfold main_with. by rewrite Hb.
Qed.

Lemma failing_fit_aborts_build_witness :
  build sample_failing (["RX"] ++ "TX" :: ["Read"; "Write"; "CPU load"])
  = IO [] (Raise TypeError)
  ∧ main_with (["RX"] ++ "TX" :: ["Read"; "Write"; "CPU load"]) sample_failing
      [Blank]
    = IO [] (Raise TypeError).
Proof.
  apply (failing_fit_aborts_build sample_failing [2; 3] ["RX"] "TX"
           ["Read"; "Write"; "CPU load"] [-1; 0] TypeError [Blank]).
  - reflexivity.
  - intros n y' Hn Hcol. apply list_elem_of_singleton in Hn as ->.
    injection Hcol as <-. exists (1, 2). apply fit_squares.
  - reflexivity.
  - apply fit_nonpositive.
Defined.

(** C5 as stated fails: in [sample_failing] the column ["RX"] is fit, the
    fit of ["TX"] raises, and the build ends there with TypeError instead
    of a table holding the entry of ["RX"]; [main] ends with it before
    reading any input. *)
Lemma build_aborts_on_failing_column :
  power_law_fit [2; 3] [4; 9] = Ok (1, 2)
  ∧ build sample_failing targets = IO [] (Raise TypeError)
  ∧ main sample_failing [Blank] = IO [] (Raise TypeError).
Proof.
  assert (build sample_failing targets = IO [] (Raise TypeError)) as Hb.
  { rewrite (build_with_column sample_failing [2; 3]) by reflexivity.
    unfold targets.
    rewrite (build_loop_fitted sample_failing [2; 3] "RX" _ _ [4; 9] (1, 2))
      by (reflexivity || apply fit_squares).
    apply (build_loop_raised sample_failing [2; 3] "TX" _ _ [-1; 0] TypeError);
      [reflexivity | apply fit_nonpositive]. }
  split; [apply fit_squares | split; [done |]].
  unfold main, main_with. by rewrite Hb.
Qed.

(** C6.  With the independent column present and every fit returning,
    the build returns a table and prints one notice per target name that
    is not a column; the keys of the table are the lower-cased present
    target names; the entry under a lower-cased name is the result of
    fitting that column (when no other present target has the same
    lower-case form, as is the case for the program's targets). *)
Theorem build_stores_lowercased_fits (data : gmap string (list R))
    (x : list R) (names : list string) :
  data !! independent = Some x →
  (∀ n y, n ∈ names → data !! n = Some y → is_Ok (power_law_fit x y)) →
  ∃ coeff,
    build data names = IO (MissingColumn <$> absent data names) (Ok coeff)
    ∧ dom coeff = list_to_set (lower <$> present data names)
    ∧ ∀ n y, n ∈ names → data !! n = Some y →
        (∀ n', n' ∈ present data names → lower n' = lower n → n' = n) →
        ∃ r, power_law_fit x y = Ok r ∧ coeff !! lower n = Some r.
Proof.
  intros Hx Hfits. rewrite (build_with_column data x names Hx).
  destruct (build_loop_returns data x names ∅ Hfits) as [coeff Hok].
  exists coeff. split; [| split].
  - rewrite <- (build_loop_printed data x names ∅ coeff Hok), <- Hok.
    symmetry. apply io_eta.
  - rewrite (build_loop_dom data x names ∅ coeff Hok), dom_empty_L.
    by rewrite (left_id_L ∅ (∪)).
  - intros n y Hn Hcol Huniq.
    by apply (build_loop_entry data x names ∅ coeff n y Hok).
Qed.

Lemma build_stores_lowercased_fits_witness :
  build sample_rx ["RX"; "missing_col"]
  = IO [MissingColumn "missing_col"] (Ok {["rx" := (1, 2)]}).
Proof.
  destruct (build_stores_lowercased_fits sample_rx [2; 3] ["RX"; "missing_col"])
    as (coeff & Hb & Hdom & Hentry).
  - reflexivity.
  - intros n y Hn Hcol.
    apply elem_of_cons in Hn as [->|Hn].
    + injection Hcol as <-. exists (1, 2). apply fit_squares.
    + apply list_elem_of_singleton in Hn as ->. discriminate Hcol.
  - rewrite Hb. change (absent sample_rx ["RX"; "missing_col"]) with ["missing_col"].
    change (present sample_rx ["RX"; "missing_col"]) with ["RX"] in Hdom, Hentry.
    cbn [fmap list_fmap]. f_equal. f_equal.
    apply map_eq. intros k. destruct (decide (k = "rx")) as [->|Hne].
    + rewrite lookup_singleton_eq.
      destruct (Hentry "RX" [4; 9]) as (r & Hr & Hk).
      * constructor.
      * reflexivity.
      * intros n' Hn' _. by apply list_elem_of_singleton in Hn'.
      * rewrite fit_squares in Hr. injection Hr as <-. exact Hk.
    + rewrite lookup_singleton_ne by done.
      apply not_elem_of_dom. rewrite Hdom. cbn.
      intros Hk. apply elem_of_union in Hk as [Hk|Hk].
      * by apply elem_of_singleton in Hk.
      * by apply elem_of_empty in Hk.
Defined.

(** C7 (amended).  For every table, every list of names and every load
    at which [calc] returns for each key that has an entry, the
    prediction loop returns and prints exactly one (key, value) line per
    name whose lower-cased key has an entry, in the order of the names,
    the value being what [calc] returns; names without an entry are
    skipped silently. *)
Theorem predict_loop_prints_known_keys (coeff : gmap string (R * R))
    (names : list string) (x_val : R) :
  (∀ k, k ∈ known_keys coeff names → is_Ok (calc coeff k x_val)) →
  ∃ pairs : list (string * R),
    predict_loop coeff names x_val = IO (prediction_line <$> pairs) (Ok ())
    ∧ pairs.*1 = known_keys coeff names
    ∧ Forall (λ kv, calc coeff kv.1 x_val = Ok kv.2) pairs.
Proof.
  unfold known_keys. induction names as [|name names IH]; intros Hcalc.
  - exists []. by repeat split.
  - rewrite fmap_cons in *.
    destruct (coeff !! lower name) as [r|] eqn:Hk.
    + rewrite filter_cons_True in * by (by rewrite Hk).
      destruct (Hcalc (lower name)) as [y_val Hy]; [by left |].
      destruct IH as (pairs & Hloop & Hkeys & Hvals).
      { intros k Hin. apply Hcalc. by right. }
      exists ((lower name, y_val) :: pairs).
      rewrite (predict_loop_print _ _ _ _ _ _ Hk Hy), Hloop.
      repeat split; [by rewrite fmap_cons, Hkeys | by constructor].
    + rewrite filter_cons_False in * by (rewrite Hk; by intros [? ?]).
      rewrite (predict_loop_skip _ _ _ _ Hk). by apply IH.
Qed.

Lemma predict_loop_prints_known_keys_witness :
  predict_loop {["cpu load" := (2, 1)]} targets 10
  = IO [Prediction "cpu load" 20 " CPU"] (Ok ()).
Proof.
  pose proof calc_cpu_load_10 as Hc.
  destruct (predict_loop_prints_known_keys {["cpu load" := (2, 1)]} targets 10)
    as (pairs & Hloop & Hkeys & Hvals).
  - change (known_keys {["cpu load" := (2, 1)]} targets) with ["cpu load"].
    intros k Hk. apply list_elem_of_singleton in Hk as ->. by exists 20.
  - change (known_keys {["cpu load" := (2, 1)]} targets) with ["cpu load"] in Hkeys.
    destruct pairs as [|[k v] [|? ?]]; try discriminate Hkeys.
    injection Hkeys as ->. apply Forall_cons in Hvals as [Hv _].
    cbn [fst snd] in Hv. rewrite Hc in Hv. injection Hv as <-.
    exact Hloop.
Defined.

(** C7 as stated fails at load zero: with the entry ["cpu load" ↦ (2, -1)]
    the loop over the program's targets raises ValueError and returns no
    pairs. *)
Lemma predict_loop_raises_at_zero :
  predict_loop {["cpu load" := (2, -1)]} targets 0 = IO [] (Raise ValueError).
Proof.
  assert (calc {["cpu load" := (2, -1)]} (lower "CPU load") 0 = Raise ValueError)
    as Hc.
  { rewrite (calc_entry _ _ 2 (-1) 0) by reflexivity.
    by rewrite math_pow_zero_negative by lra. }
  unfold targets.
  rewrite !predict_loop_skip by reflexivity.
  by rewrite (predict_loop_raise _ _ _ _ (2, -1) ValueError) by done.
Qed.

(** C8 (amended).  The first coefficient of every pair [power_law_fit]
    returns is [np.exp] of the fitted intercept: it is never negative,
    and it is positive exactly when the exponential of the intercept
    does not round to zero.  Hence no entry of a table the build returns
    has a negative first coefficient. *)
Theorem first_coefficient_not_negative :
  (∀ x y a b, power_law_fit x y = Ok (a, b) →
     ∃ log_a,
       np.polyfit1 (np.log (positive_x x y)) (np.log (positive_y x y))
       = Ok (b, log_a)
       ∧ a = np.exp log_a
       ∧ 0 <= a
       ∧ (0 < a ↔ round_to_zero < exp log_a))
  ∧ (∀ data names coeff key a b,
       outcome (build data names) = Ok coeff →
       coeff !! key = Some (a, b) → 0 <= a).
Proof.
  split.
  - intros x y a b H.
    destruct (power_law_fit_ok_inv x y a b H) as (log_a & -> & Hfit).
    exists log_a. split; [done |]. split; [done |].
    split; [apply np_exp_nonneg | apply np_exp_pos].
  - intros data names coeff key a b Hb Hk.
    unfold build, subscript in Hb.
    destruct (data !! independent) as [x|]; [| done].
    rewrite bind_lift_ok in Hb.
    apply (build_loop_nonneg data x names ∅ coeff
             (map_Forall_empty _) Hb key (a, b) Hk).
Qed.

Lemma first_coefficient_not_negative_witness :
  power_law_fit [2; 3] [4; 9] = Ok (1, 2) ∧ 0 <= 1
  ∧ outcome (build sample_decay targets) = Ok {["cpu load" := (2, -1)]} ∧ 0 <= 2.
Proof.
  assert (outcome (build sample_decay targets) = Ok {["cpu load" := (2, -1)]})
    as Hb by (by rewrite build_sample_decay).
  split; [apply fit_squares | split; [| split; [exact Hb |]]].
  - destruct (proj1 first_coefficient_not_negative [2; 3] [4; 9] 1 2 fit_squares)
      as (log_a & _ & _ & Hnonneg & _).
    exact Hnonneg.
  - apply (proj2 first_coefficient_not_negative sample_decay targets
             {["cpu load" := (2, -1)]} "cpu load" 2 (-1) Hb).
    apply lookup_singleton_eq.
Defined.

(** C8 as stated fails when the fitted intercept is very negative: the
    samples [(10^100, 10^-300)] and [(10^200, 10^-200)] lie on
    [y = 10^-400·x], and the fit returns [b = 1] with [a = 0]. *)
Lemma fit_first_coefficient_zero :
  power_law_fit [10 ^ 100; 10 ^ 200] [/ 10 ^ 300; / 10 ^ 200] = Ok (0, 1).
Proof.
  assert (0 < 10 ^ 100) as H1 by (apply pow_lt; lra).
  assert (0 < 10 ^ 200) as H2 by (apply pow_lt; lra).
  assert (0 < 10 ^ 300) as H3 by (apply pow_lt; lra).
  assert (0 < 10 ^ 400) as H4 by (apply pow_lt; lra).
  assert ([/ 10 ^ 300; / 10 ^ 200]
          = map (λ v, / 10 ^ 400 * Rpower v 1) [10 ^ 100; 10 ^ 200]) as ->.
  { cbn [map]. rewrite !Rpower_1 by done.
    change 400%nat with (300 + 100)%nat at 1.
    change 400%nat with (200 + 200)%nat. rewrite !pow_add.
    repeat f_equal; field; lra. }
  apply power_law_underflow.
  - by apply Rinv_0_lt_compat.
  - apply inv_pow_10_400_underflows.
  - by repeat constructor.
  - apply logs_1e100_1e200_well_conditioned.
Qed.

(** C9 (amended).  For a stored pair [(a, b)] with [b < 0], [calc] at
    [x = 0] raises ValueError, the domain error of [math.pow]; nothing
    catches it, so a load of zero ends the serving loop, and [main], with
    that exception. *)
Theorem calc_at_zero_raises (coeff : gmap string (R * R)) (names : list string)
    (name : string) (a b : R) (rest : list line) :
  name ∈ names → coeff !! lower name = Some (a, b) → b < 0 →
  calc coeff (lower name) 0 = Raise ValueError
  ∧ outcome (serve coeff names (Number 0 :: rest)) = Raise ValueError
  ∧ ∀ data, outcome (build data names) = Ok coeff →
            outcome (main_with names data (Number 0 :: rest)) = Raise ValueError.
Proof.
  intros Hin Hk Hb.
  assert (outcome (serve coeff names (Number 0 :: rest)) = Raise ValueError) as Hs.
  { apply serve_number_raises. by apply (predict_loop_zero_raises _ _ name a b). }
  split; [| split; [done |]].
  - by rewrite (calc_entry _ _ _ _ _ Hk), math_pow_zero_negative.
  - intros data Hbuild. by rewrite (main_with_outcome _ _ _ _ Hbuild).
Qed.

Lemma calc_at_zero_raises_witness :
  calc {["cpu load" := (2, -1)]} (lower "CPU load") 0 = Raise ValueError
  ∧ outcome (serve {["cpu load" := (2, -1)]} targets [Number 0]) = Raise ValueError.
Proof.
  destruct (calc_at_zero_raises {["cpu load" := (2, -1)]} targets "CPU load"
              2 (-1) []) as (Hc & Hs & _).
  - unfold targets. repeat constructor.
  - reflexivity.
  - lra.
  - by split.
Defined.

(** C9 as stated fails on the whole program: on [sample_decay] the build
    succeeds with the entry ["cpu load" ↦ (2, -1)]; typing 0 at the prompt
    then ends [main] with an unhandled ValueError, and the blank line that
    would end the program normally is never read. *)
Lemma main_crashes_at_zero :
  main sample_decay [Number 0; Blank]
  = IO [MissingColumn "RX"; MissingColumn "TX"; MissingColumn "Read";
        MissingColumn "Write"; Coefficients {["cpu load" := (2, -1)]};
        Banner; LoadHeader 0]
       (Raise ValueError).
Proof.
  unfold main, main_with. rewrite build_sample_decay.
  rewrite (bind_ok _ _ {["cpu load" := (2, -1)]}) by reflexivity.
  rewrite !bind_print, serve_crashes_at_zero. reflexivity.
Qed.

(** C10.  Without the column ["log generation"] the subscript of line 55
    raises KeyError before the loop over the targets starts: nothing is
    printed, no table exists, and [main] ends with that exception whatever
    the targets are. *)
Theorem build_without_independent_column (data : gmap string (list R))
    (names : list string) (inputs : list line) :
  data !! independent = None →
  build data names = IO [] (Raise (KeyError independent))
  ∧ main_with names data inputs = IO [] (Raise (KeyError independent)).
Proof.
  intros H.
  assert (build data names = IO [] (Raise (KeyError independent))) as Hb.
  { unfold build, subscript. by rewrite H. }
  split; [done |]. unfold main_with. by rewrite Hb.
Qed.

Lemma build_without_independent_column_witness :
  build {["RX" := [4; 9]]} targets = IO [] (Raise (KeyError independent))
  ∧ main_with targets {["RX" := [4; 9]]} [Blank] = IO [] (Raise (KeyError independent)).
Proof.
  apply (build_without_independent_column {["RX" := [4; 9]]} targets [Blank]).
  reflexivity.
Defined.

(** * Further properties of the program *)

(** ** [power_law_fit]: exact data, optimality *)


Section fit_shifts.
Implicit Types u w x y : list R.













End fit_shifts.





(** X3.  What the fit optimises: when the log-abscissas of the surviving
    pairs are well-conditioned and the first coefficient is in the range
    of the normal doubles, the returned pair [(a, b)] minimises, over all
    slopes and intercepts, the sum of squared residuals
    [ln y - (b·ln x + ln a)] over the surviving pairs. *)
Theorem fit_minimises_log_residuals (x y : list R) (a b b' log_a' : R) :
  well_conditioned (np.log (positive_x x y)) →
  power_law_fit x y = Ok (a, b) → normal_double a →
  residual_ss b (ln a) (np.log (positive_x x y)) (np.log (positive_y x y))
  <= residual_ss b' log_a' (np.log (positive_x x y)) (np.log (positive_y x y)).
Proof.
  intros Hwc H Hn. destruct (power_law_fit_ok_inv x y a b H) as (i & -> & Hfit).
  assert (0 < np.exp i) as Ha.
  { destruct (normal_double_range _ Hn). pose proof round_to_zero_pos. lra. }
  rewrite (np_exp_pos_eq i Ha), ln_exp. by apply polyfit1_least_squares.
Qed.

Lemma fit_minimises_log_residuals_witness :
  residual_ss 2 (ln 1) (np.log (positive_x [2; 3] [4; 9]))
              (np.log (positive_y [2; 3] [4; 9]))
  <= residual_ss 1 0 (np.log (positive_x [2; 3] [4; 9]))
                 (np.log (positive_y [2; 3] [4; 9])).
Proof.
  apply (fit_minimises_log_residuals [2; 3] [4; 9] 1 2 1 0).
  - eval_mask. apply logs_2_3_well_conditioned.
  - apply fit_squares.
  - apply normal_double_moderate. lra.
Defined.





(** X6.  Arrays of different lengths are never fit.  When neither has
    exactly one element the masks cannot be combined and [power_law_fit]
    raises ValueError.  When one has exactly one element its mask is
    broadcast: if the other array is empty the mask is empty, selects
    nothing, and [np.polyfit] raises TypeError on the empty vectors;
    otherwise the mask does not match one of the arrays and the indexing
    raises IndexError. *)
Theorem fit_rejects_unequal_lengths (x y : list R) :
  length x ≠ length y →
  power_law_fit x y
  = Raise (if decide (length x = 1 ∨ length y = 1)%nat
           then if decide (x = [] ∨ y = []) then TypeError else IndexError
           else ValueError).
Proof. apply power_law_fit_mismatch. Qed.

Lemma fit_rejects_unequal_lengths_witness :
  power_law_fit [1; 2; 3] [4; 5] = Raise ValueError
  ∧ power_law_fit [1; 2; 3] [4] = Raise IndexError
  ∧ power_law_fit [] [1] = Raise TypeError.
Proof.
  split; [| split].
  - by rewrite (fit_rejects_unequal_lengths [1; 2; 3] [4; 5]).
  - by rewrite (fit_rejects_unequal_lengths [1; 2; 3] [4]).
  - by rewrite (fit_rejects_unequal_lengths [] [1]).
Defined.

(** X7.  One abscissa only: when all surviving pairs share one abscissa
    [x0 ≠ 1], the fit does not fail; it returns [b] and [a = np.exp] of
    half the mean of the logarithms of the surviving ordinates, with
    [b·ln x0] equal to that half.  When the surviving ordinates are
    positive doubles, [a] is the square root of their geometric mean,
    [b = ln a / ln x0], and the curve passes through [x0] at that
    geometric mean. *)
Theorem fit_on_one_abscissa (x y : list R) (k : nat) (x0 : R) :
  length x = length y →
  positive_x x y = replicate (S k) x0 → x0 ≠ 1 →
  ∃ a b, power_law_fit x y = Ok (a, b)
    ∧ a = np.exp (np.sum (np.log (positive_y x y)) / (2 * INR (S k)))
    ∧ b * ln x0 = np.sum (np.log (positive_y x y)) / (2 * INR (S k))
    ∧ (Forall positive_double (positive_y x y) →
       a * a = exp (np.sum (np.log (positive_y x y)) / INR (S k))
       ∧ b = ln a / ln x0
       ∧ a * Rpower x0 b
         = exp (np.sum (np.log (positive_y x y)) / INR (S k))).
Proof.
  intros Hlen Hx Hx1.
  assert (0 < x0) as Hx0.
  { pose proof (positive_x_pos x y) as Hp. rewrite Hx in Hp.
    by apply Forall_cons in Hp as [? _]. }
  pose proof (ln_neq_0 x0 Hx1 Hx0) as Hl.
  pose proof (INR_S_pos k) as Hn.
  assert (length (positive_y x y) = S k) as Hk.
  { by rewrite <- positive_length, Hx, length_replicate. }
  eexists _, _. split; [| split; [reflexivity | split]].
  - rewrite (power_law_fit_eq x y Hlen), Hx.
    unfold np.log at 1. change map with (@fmap list _) at 1.
    rewrite fmap_replicate, polyfit1_single_abscissa; [reflexivity | done |].
    unfold np.log. by rewrite length_map.
  - field. lra.
  - intros Hdouble.
    set (m := np.sum (np.log (positive_y x y))) in *.
    assert (INR (S k) * ln float_least <= m) as Hm.
    { unfold m. rewrite <- Hk. clear Hk.
      induction Hdouble as [|v l [Hv _] _ IH]; [simpl; lra |].
      cbn [length np.log map]. rewrite sum_cons, S_INR.
      assert (ln float_least <= ln v); [| unfold np.log in IH; lra].
      destruct Hv as [Hv|Hv]; [| rewrite Hv; lra].
      left. apply ln_increasing; [| done].
      pose proof round_to_zero_pos. pose proof float_least_above. lra. }
    assert (ln float_least < 0) as Hneg.
    { rewrite <- ln_1. apply ln_increasing; [| apply float_least_small].
      pose proof round_to_zero_pos. pose proof float_least_above. lra. }
    assert (round_to_zero < exp (m / (2 * INR (S k)))) as Hrange.
    { apply (Rlt_le_trans _ float_least); [apply float_least_above |].
      pose proof round_to_zero_pos. pose proof float_least_above.
      rewrite <- (exp_ln float_least) at 1 by lra.
      assert (ln float_least <= m / (2 * INR (S k))) as [Hlt| ->].
      { apply (Rmult_le_reg_l (2 * INR (S k))); [lra |].
        replace (2 * INR (S k) * (m / (2 * INR (S k)))) with m by (field; lra).
        nra. }
      - left. by apply exp_increasing.
      - lra. }
    rewrite (np_exp_ok _ Hrange), ln_exp. unfold Rpower.
    rewrite <- !exp_plus.
    split; [f_equal; field; lra |]. split; [field; lra |].
    f_equal. field. lra.
Qed.

Lemma fit_on_one_abscissa_witness :
  ∃ a b, power_law_fit [2; -1; 2] [4; 5; 9] = Ok (a, b)
    ∧ a * a = exp (np.sum (np.log (positive_y [2; -1; 2] [4; 5; 9])) / INR 2)
    ∧ b = ln a / ln 2
    ∧ a * Rpower 2 b
      = exp (np.sum (np.log (positive_y [2; -1; 2] [4; 5; 9])) / INR 2).
Proof.
  destruct (fit_on_one_abscissa [2; -1; 2] [4; 5; 9] 1 2)
    as (a & b & Hfit & _ & _ & Hdouble).
  - reflexivity.
  - eval_mask. reflexivity.
  - lra.
  - exists a, b. split; [exact Hfit |]. apply Hdouble.
    eval_mask. pose proof float_least_small.
    assert (9 <= float_max) by (apply IZR_le; apply Zle_bool_imp_le; reflexivity).
    assert (∀ v, 1 <= v <= 9 → positive_double v) as Hd
      by (intros v ?; unfold positive_double; lra).
    repeat (apply Forall_cons_2; [apply Hd; lra |]). apply Forall_nil_2.
Defined.

(** ** [power_law_fit] does not depend on the order of the samples *)

Section fit_order.
Implicit Types u w x y : list R.

Lemma sum_Permutation u u' : u ≡ₚ u' → np.sum u = np.sum u'.
Proof.
  induction 1 as [|t u u' _ IH|s t u|u u' u'' _ IH1 _ IH2].
  - done.
  - rewrite !sum_cons. lra.
  - rewrite !sum_cons. lra.
  - congruence.
Qed.

Lemma dot_as_sum u w :
  np.dot u w = np.sum ((λ p, p.1 * p.2) <$> zip u w).
Proof.
  unfold np.dot. f_equal. revert w.
  induction u as [|t u IH]; intros [|v w]; simpl; f_equal; auto.
Qed.

Lemma zip_log u w :
  zip (np.log u) (np.log w) = (λ p, (ln p.1, ln p.2)) <$> zip u w.
Proof.
  unfold np.log. revert w.
  induction u as [|t u IH]; intros [|v w]; simpl; f_equal; auto.
Qed.

Lemma zip_positive x y :
  zip (positive_x x y) (positive_y x y)
  = filter (λ p, 0 < p.1 ∧ 0 < p.2) (zip x y).
Proof.
  unfold positive_x, positive_y. revert y.
  induction x as [|u x IH]; intros [|v y]; simpl; try done.
  destruct (decide (0 < u)) as [Hu|Hu], (decide (0 < v)) as [Hv|Hv].
  - rewrite !bool_decide_eq_true_2 by done. simpl.
    rewrite filter_cons_True by done. by rewrite IH.
  - rewrite bool_decide_eq_true_2, bool_decide_eq_false_2 by done. simpl.
    rewrite filter_cons_False by (simpl; tauto). apply IH.
  - rewrite bool_decide_eq_false_2 by done. simpl.
    rewrite filter_cons_False by (simpl; tauto). apply IH.
  - rewrite bool_decide_eq_false_2 by done. simpl.
    rewrite filter_cons_False by (simpl; tauto). apply IH.
Qed.

(** [polyfit1] sees its two arrays only through sums over the pairs. *)
Lemma polyfit1_Permutation u w u' w' :
  length u = length w → length u' = length w' →
  zip u w ≡ₚ zip u' w' →
  np.polyfit1 u w = np.polyfit1 u' w'.
Proof.
  intros Hlen Hlen' Hperm.
  assert (u ≡ₚ u') as Hu.
  { rewrite <- (fst_zip u w), <- (fst_zip u' w') by lia. by rewrite Hperm. }
  assert (w ≡ₚ w') as Hw.
  { rewrite <- (snd_zip u w), <- (snd_zip u' w') by lia. by rewrite Hperm. }
  destruct (decide (u = [])) as [->|Hne].
  - apply Permutation_nil in Hu as ->. done.
  - assert (u' ≠ []) as Hne'.
    { intros ->. by apply Permutation_nil_r in Hu. }
    assert (np.dot u u = np.dot u' u') as Exx.
    { rewrite (dot_as_sum u u), (dot_as_sum u' u').
      apply sum_Permutation, fmap_Permutation. rewrite !zip_diag.
      by rewrite Hu. }
    assert (np.dot u w = np.dot u' w') as Exy.
    { rewrite (dot_as_sum u w), (dot_as_sum u' w').
      by apply sum_Permutation, fmap_Permutation. }
    pose proof (sum_Permutation _ _ Hu) as Esx.
    pose proof (sum_Permutation _ _ Hw) as Esy.
    pose proof (Permutation_length Hu) as En.
    assert (np.full_rank u ↔ np.full_rank u') as Hrank.
    { unfold np.full_rank. by rewrite Exx, Esx, En. }
    rewrite (polyfit1_eq u w Hne Hlen), (polyfit1_eq u' w' Hne' Hlen').
    rewrite <- Exx.
    destruct (decide (np.dot u u = 0)); [done |].
    destruct (decide (np.full_rank u)), (decide (np.full_rank u')); try tauto.
    + unfold gram. by rewrite <- Exx, <- Exy, <- Esx, <- Esy, <- En.
    + cbv zeta. by rewrite <- Exy, <- Esx, <- Esy, <- En.
Qed.
End fit_order.

(** X8.  The order of the rows does not matter: two parallel pairs of
    arrays that hold the same sample pairs in a different order are fit
    alike, in result and in failure. *)
Theorem fit_ignores_sample_order (x y x' y' : list R) :
  length x = length y → length x' = length y' →
  zip x y ≡ₚ zip x' y' →
  power_law_fit x y = power_law_fit x' y'.
Proof.
  intros Hlen Hlen' Hperm.
  rewrite (power_law_fit_eq x y Hlen), (power_law_fit_eq x' y' Hlen').
  rewrite (polyfit1_Permutation (np.log (positive_x x y)) _
             (np.log (positive_x x' y')) (np.log (positive_y x' y'))).
  - done.
  - unfold np.log. rewrite !length_map. apply positive_length.
  - unfold np.log. rewrite !length_map. apply positive_length.
  - rewrite !zip_log, !zip_positive. by rewrite Hperm.
Qed.

Lemma fit_ignores_sample_order_witness :
  power_law_fit [2; -1; 3] [4; 5; 9] = power_law_fit [3; 2; -1] [9; 4; 5].
Proof.
  apply (fit_ignores_sample_order [2; -1; 3] [4; 5; 9] [3; 2; -1] [9; 4; 5]).
  - reflexivity.
  - reflexivity.
  - cbn [zip zip_with].
    etrans; [apply Permutation_skip, Permutation_swap |].
    apply Permutation_swap.
Defined.


(** X9.  The build stops at the first target whose fit raises: it ends
    with exactly that exception, having printed the notices of the absent
    names before it and nothing about the names after it. *)
Theorem build_stops_at_first_failure (data : gmap string (list R))
    (x : list R) (names1 : list string) (name : string)
    (names2 : list string) (y : list R) (e : exn) :
  data !! independent = Some x →
  (∀ n y', n ∈ names1 → data !! n = Some y' → is_Ok (power_law_fit x y')) →
  data !! name = Some y → power_law_fit x y = Raise e →
  build data (names1 ++ name :: names2)
  = IO (MissingColumn <$> absent data names1) (Raise e).
Proof.
  intros Hx Hfits Hcol Hfit. rewrite (build_with_column data x _ Hx).
  by apply (build_loop_first_failure data x names1 name names2 ∅ y e).
Qed.

Lemma build_stops_at_first_failure_witness :
  build sample_failing (["Read"; "RX"] ++ "TX" :: ["Write"; "CPU load"])
  = IO [MissingColumn "Read"] (Raise TypeError).
Proof.
  apply (build_stops_at_first_failure sample_failing [2; 3] ["Read"; "RX"]
           "TX" ["Write"; "CPU load"] [-1; 0] TypeError).
  - reflexivity.
  - intros n y' Hn Hcol.
    apply elem_of_cons in Hn as [->|Hn]; [discriminate Hcol |].
    apply list_elem_of_singleton in Hn as ->.
    injection Hcol as <-. exists (1, 2). apply fit_squares.
  - reflexivity.
  - apply fit_nonpositive.
Defined.

(** X10.  Names that differ in letter case only share one entry, and the
    later target wins: after a returning build the entry under a
    lower-cased name holds the fit of the last present target with that
    lower-case form. *)
Theorem build_last_spelling_wins (data : gmap string (list R)) (x : list R)
    (names1 : list string) (name : string) (names2 : list string)
    (y : list R) (coeff : gmap string (R * R)) :
  data !! independent = Some x →
  outcome (build data (names1 ++ name :: names2)) = Ok coeff →
  data !! name = Some y →
  (∀ n, n ∈ present data names2 → lower n ≠ lower name) →
  ∃ r, power_law_fit x y = Ok r ∧ coeff !! lower name = Some r.
Proof.
  intros Hx Hok Hcol Hlast. rewrite (build_with_column data x _ Hx) in Hok.
  apply build_loop_app_ok in Hok as (coeff1 & _ & Hok).
  destruct (power_law_fit x y) as [r|e] eqn:Hr.
  - rewrite (build_loop_fitted _ _ _ _ _ _ _ Hcol Hr) in Hok.
    exists r. split; [done |].
    rewrite (build_loop_untouched _ _ _ _ _ _ Hok); [apply lookup_insert_eq |].
    intros Hin. apply list_elem_of_fmap in Hin as (n & Hlow & Hn).
    by apply (Hlast n).
  - by rewrite (build_loop_raised _ _ _ _ _ _ _ Hcol Hr) in Hok.
Qed.

Lemma build_sample_collision :
  build sample_collision ["cpu load"; "CPU load"]
  = IO [] (Ok {["cpu load" := (2, -1)]}).
Proof.
  rewrite (build_with_column sample_collision [1; 2]) by reflexivity.
  rewrite (build_loop_fitted sample_collision [1; 2] "cpu load" _ _ [1; 4] (1, 2))
    by (reflexivity || apply fit_squares_from_one).
  rewrite (build_loop_fitted sample_collision [1; 2] "CPU load" _ _ [2; 1] (2, -1))
    by (reflexivity || apply fit_decay).
  cbn. by rewrite insert_insert_eq, insert_empty.
Qed.

Lemma build_last_spelling_wins_witness :
  ∃ r, power_law_fit [1; 2] [2; 1] = Ok r
       ∧ ({["cpu load" := (2, -1)]} : gmap string (R * R)) !! lower "CPU load"
         = Some r.
Proof.
  apply (build_last_spelling_wins sample_collision [1; 2] ["cpu load"]
           "CPU load" [] [2; 1]).
  - reflexivity.
  - cbn [app]. by rewrite build_sample_collision.
  - reflexivity.
  - intros n Hn. by apply elem_of_nil in Hn.
Defined.

(** ** From the table to the printed predictions *)

Section table_to_predictions.
Implicit Types (coeff : gmap string (R * R)) (names keys : list string).

(** When lower-casing separates the names, the keys of the table that
    the names reach are the lower-cased present names, in order. *)
Lemma known_keys_of_build data names coeff :
  outcome (build data names) = Ok coeff →
  (∀ n n', n ∈ names → n' ∈ names → lower n = lower n' → n = n') →
  known_keys coeff names = lower <$> present data names.
Proof.
  intros Hb Hinj. unfold build, subscript in Hb.
  destruct (data !! independent) as [x|]; [| done].
  rewrite bind_lift_ok in Hb.
  pose proof (build_loop_dom data x names ∅ coeff Hb) as Hdom.
  rewrite dom_empty_L, (left_id_L ∅ (∪)) in Hdom.
  assert (∀ n, n ∈ names → is_Some (coeff !! lower n) ↔ is_Some (data !! n))
    as Hiff.
  { intros n Hn. rewrite <- elem_of_dom, Hdom, elem_of_list_to_set.
    rewrite list_elem_of_fmap. unfold present. split.
    - intros (n' & Hlow & Hn'). apply list_elem_of_filter in Hn' as [Hs Hin'].
      by rewrite (Hinj n n' Hn Hin' Hlow).
    - intros Hs. exists n. split; [done |]. by apply list_elem_of_filter. }
  unfold known_keys, present. clear Hb Hdom Hinj.
  induction names as [|n names IH]; [done |].
  rewrite fmap_cons.
  assert (∀ n', n' ∈ names
          → is_Some (coeff !! lower n') ↔ is_Some (data !! n')) as Hrest.
  { intros n' Hn'. apply Hiff. by right. }
  destruct (decide (is_Some (data !! n))) as [Hs|Hs].
  - rewrite (filter_cons_True _ (lower n)) by (apply Hiff; [by left | done]).
    rewrite (filter_cons_True _ n) by done. rewrite fmap_cons.
    f_equal. by apply IH.
  - rewrite (filter_cons_False _ (lower n))
      by (intros Hc; apply Hs, Hiff; [by left | done]).
    rewrite (filter_cons_False _ n) by done. by apply IH.
Qed.
End table_to_predictions.

(** X11.  Build and prediction agree on the keys: when no two targets
    differ in letter case only (as for the program's targets), a load at
    which every evaluation returns prints exactly one line per target
    that is a column of the table, under its lower-cased name and in the
    order of the targets, and no line for any other target. *)
Theorem every_present_target_is_predicted (data : gmap string (list R))
    (names : list string) (coeff : gmap string (R * R)) (x_val : R) :
  outcome (build data names) = Ok coeff →
  (∀ n n', n ∈ names → n' ∈ names → lower n = lower n' → n = n') →
  (∀ k, k ∈ known_keys coeff names → is_Ok (calc coeff k x_val)) →
  ∃ pairs : list (string * R),
    predict_loop coeff names x_val = IO (prediction_line <$> pairs) (Ok ())
    ∧ pairs.*1 = lower <$> present data names.
Proof.
  intros Hb Hinj Hcalc.
  destruct (predict_loop_keys coeff names x_val Hcalc) as (pairs & Hloop & Hkeys).
  exists pairs. split; [done |].
  by rewrite Hkeys, (known_keys_of_build data names coeff).
Qed.

(** With the entry ["cpu load" ↦ (2, -1)], the load 4 gives 1/2. *)
Lemma calc_decay_4 :
  calc {["cpu load" := (2, -1)]} "cpu load" 4 = Ok (2 * Rpower 4 (-1)).
Proof.
  assert (Rpower 4 (-1) = / 4) as E.
  { replace (-1) with (Ropp 1) by lra. by rewrite Rpower_Ropp, Rpower_1 by lra. }
  rewrite (calc_entry _ _ 2 (-1) 4) by reflexivity.
  by rewrite math_pow_moderate by (rewrite ?E; lra).
Qed.

Lemma every_present_target_is_predicted_witness :
  ∃ pairs : list (string * R),
    predict_loop {["cpu load" := (2, -1)]} targets 4
    = IO (prediction_line <$> pairs) (Ok ())
    ∧ pairs.*1 = lower <$> present sample_decay targets.
Proof.
  apply (every_present_target_is_predicted sample_decay targets
           {["cpu load" := (2, -1)]} 4).
  - by rewrite build_sample_decay.
  - intros n n' Hn Hn' Hlow. unfold targets in Hn, Hn'.
    repeat (apply elem_of_cons in Hn as [->|Hn]);
      try (by apply elem_of_nil in Hn);
      repeat (apply elem_of_cons in Hn' as [->|Hn']);
      try (by apply elem_of_nil in Hn'); done.
  - change (known_keys {["cpu load" := (2, -1)]} targets) with ["cpu load"].
    intros k Hk. apply list_elem_of_singleton in Hk as ->.
    eexists. apply calc_decay_4.
Defined.




(** ** The serving loop over a whole session *)

Section sessions.
Context (coeff : gmap string (R * R)) (names : list string).
Implicit Types (pre post inputs : list line).

Lemma serve_cons_answered l inputs :
  answered coeff names l →
  serve coeff names (l :: inputs)
  = IO (turn_output coeff names l ++ printed (serve coeff names inputs))
       (outcome (serve coeff names inputs)).
Proof.
  destruct l as [| |x_val]; [done | |]; intros Hl; cbn [serve turn_output].
  - by rewrite bind_print.
  - cbn [answered] in Hl. rewrite bind_print. cbn [printed outcome].
    by rewrite (bind_ok _ _ () Hl).
Qed.

(** [calc] on a key that has an entry returns, or raises what
    [math.pow] raises. *)
Lemma calc_entry_cases key r x_val :
  coeff !! key = Some r →
  is_Ok (calc coeff key x_val)
  ∨ calc coeff key x_val = Raise ValueError
  ∨ calc coeff key x_val = Raise OverflowError.
Proof.
  destruct r as [a b]. intros Hk. rewrite (calc_entry _ _ _ _ _ Hk).
  destruct (math_pow_cases x_val b) as [[p Hp]|[Hp|Hp]]; rewrite Hp.
  - left. by eexists.
  - right. by left.
  - right. by right.
Qed.

Lemma predict_loop_outcomes x_val :
  outcome (predict_loop coeff names x_val) = Ok ()
  ∨ outcome (predict_loop coeff names x_val) = Raise ValueError
  ∨ outcome (predict_loop coeff names x_val) = Raise OverflowError.
Proof.
  induction names as [|name rest IH]; [by left |].
  destruct (coeff !! lower name) as [r|] eqn:Hk.
  - destruct (calc_entry_cases (lower name) r x_val Hk) as [[y_val Hy]|[He|He]].
    + by rewrite (predict_loop_print _ _ _ _ _ _ Hk Hy).
    + rewrite (predict_loop_raise _ _ _ _ _ _ Hk He). right. by left.
    + rewrite (predict_loop_raise _ _ _ _ _ _ Hk He). right. by right.
  - by rewrite (predict_loop_skip _ _ _ _ Hk).
Qed.

Lemma predict_loop_no_bad_number names' x_val :
  Forall (λ o, is_bad_number o = false)
         (printed (predict_loop coeff names' x_val)).
Proof.
  induction names' as [|name rest IH]; [constructor |].
  destruct (coeff !! lower name) as [r|] eqn:Hk.
  - destruct (calc coeff (lower name) x_val) as [y_val|e] eqn:Hy.
    + rewrite (predict_loop_print _ _ _ _ _ _ Hk Hy). by constructor.
    + rewrite (predict_loop_raise _ _ _ _ _ _ Hk Hy). constructor.
  - by rewrite (predict_loop_skip _ _ _ _ Hk).
Qed.
End sessions.

(** X13.  The blank line ends the session: whatever was typed before it,
    nothing typed after the first blank line is read or changes the
    run. *)
Theorem serve_stops_at_blank (coeff : gmap string (R * R))
    (names : list string) (pre post : list line) :
  serve coeff names (pre ++ Blank :: post) = serve coeff names (pre ++ [Blank]).
Proof.
  induction pre as [|l pre IH]; [done |].
  rewrite <- !app_comm_cons. destruct l as [| |x_val]; cbn [serve].
  - done.
  - by rewrite IH.
  - by rewrite IH.
Qed.

(** X14.  A session of answered lines closed by a blank line: the loop
    returns normally and has printed, line by line and in order, the
    error notice of each rejected text and the header and predictions of
    each number. *)
Theorem serve_answers_every_line (coeff : gmap string (R * R))
    (names : list string) (pre post : list line) :
  Forall (answered coeff names) pre →
  serve coeff names (pre ++ Blank :: post)
  = IO (pre ≫= turn_output coeff names) (Ok ()).
Proof.
  induction 1 as [|l pre Hl _ IH]; [done |].
  rewrite <- app_comm_cons, (serve_cons_answered _ _ _ _ Hl), IH. done.
Qed.

Lemma serve_answers_every_line_witness :
  serve {["cpu load" := (2, 1)]} targets
        ([Malformed; Number 10] ++ Blank :: [Number 0])
  = IO [BadNumber; LoadHeader 10; Prediction "cpu load" 20 " CPU"] (Ok ()).
Proof.
  pose proof predict_cpu_load_10 as Hp.
  rewrite (serve_answers_every_line {["cpu load" := (2, 1)]} targets
             [Malformed; Number 10] [Number 0]).
  - cbn [mbind list_bind turn_output app]. by rewrite Hp.
  - repeat constructor. cbn [answered]. by rewrite Hp.
Defined.

(** X15.  A session of answered lines that ends without a blank line:
    every line is answered as before, and then [input] raises EOFError,
    which ends the program. *)
Theorem serve_without_blank_raises_eof (coeff : gmap string (R * R))
    (names : list string) (inputs : list line) :
  Forall (answered coeff names) inputs →
  serve coeff names inputs
  = IO (inputs ≫= turn_output coeff names) (Raise EOFError).
Proof.
  induction 1 as [|l inputs Hl _ IH]; [done |].
  rewrite (serve_cons_answered _ _ _ _ Hl), IH. done.
Qed.

Lemma serve_without_blank_raises_eof_witness :
  serve {["cpu load" := (2, 1)]} targets [Malformed; Malformed]
  = IO [BadNumber; BadNumber] (Raise EOFError).
Proof.
  apply (serve_without_blank_raises_eof {["cpu load" := (2, 1)]} targets
           [Malformed; Malformed]).
  by repeat constructor.
Defined.

(** X16.  The only exceptions that leave the serving loop are the
    ValueError and the OverflowError of [math.pow] and the EOFError of
    [input]: the guard of line 95 keeps the KeyError of [calc] from ever
    being raised, and rejected text never raises. *)
Theorem serve_outcomes (coeff : gmap string (R * R)) (names : list string)
    (inputs : list line) :
  outcome (serve coeff names inputs) = Ok ()
  ∨ outcome (serve coeff names inputs) = Raise ValueError
  ∨ outcome (serve coeff names inputs) = Raise OverflowError
  ∨ outcome (serve coeff names inputs) = Raise EOFError.
Proof.
  induction inputs as [|l inputs IH]; [by right; right; right |].
  destruct l as [| |x_val]; cbn [serve].
  - by left.
  - by rewrite bind_print.
  - rewrite bind_print. cbn [outcome].
    destruct (predict_loop_outcomes coeff names x_val) as [Hok|[He|He]].
    + by rewrite (bind_ok _ _ () Hok).
    + right. left. by apply bind_outcome_raise.
    + right. right. left. by apply bind_outcome_raise.
Qed.

Lemma filter_all {A} (P : A → Prop) `{∀ a, Decision (P a)} (l : list A) :
  Forall P l → filter P l = l.
Proof.
  induction 1 as [|a l Ha _ IH]; [done |].
  rewrite filter_cons_True by done. by rewrite IH.
Qed.

(** X17.  Rejected text is harmless: deleting the lines that are not
    numbers from a session changes neither how the session ends nor what
    it prints, apart from the error notices themselves. *)
Theorem malformed_lines_are_harmless (coeff : gmap string (R * R))
    (names : list string) (inputs : list line) :
  outcome (serve coeff names inputs)
  = outcome (serve coeff names (filter (λ l, is_malformed l = false) inputs))
  ∧ filter (λ o, is_bad_number o = false) (printed (serve coeff names inputs))
    = printed (serve coeff names (filter (λ l, is_malformed l = false) inputs)).
Proof.
  induction inputs as [|l inputs [IHo IHp]]; [done |].
  destruct l as [| |x_val].
  - rewrite filter_cons_True by done. done.
  - rewrite filter_cons_False by done. cbn [serve]. rewrite bind_print.
    cbn [outcome printed]. rewrite filter_cons_False by done. done.
  - rewrite filter_cons_True by done. cbn [serve]. rewrite !bind_print.
    cbn [outcome printed]. rewrite filter_cons_True by done.
    pose proof (predict_loop_no_bad_number coeff names x_val) as Hnb.
    destruct (outcome (predict_loop coeff names x_val)) as [[]|e] eqn:Hp.
    + rewrite !(bind_ok _ _ () Hp). cbn [outcome printed].
      rewrite filter_app, (filter_all _ _ Hnb). by rewrite IHo, IHp.
    + unfold mbind, io_bind. rewrite Hp. cbn [outcome printed].
      by rewrite (filter_all _ _ Hnb).
Qed.

(** X18.  The shape of a whole run after a returning build: the notices
    of the build, the table, the banner, whatever the serving loop
    printed, and the closing line exactly when the loop ended by a blank
    line; the run ends as the serving loop ended. *)
Theorem main_output_shape (data : gmap string (list R)) (names : list string)
    (coeff : gmap string (R * R)) (inputs : list line) :
  outcome (build data names) = Ok coeff →
  main_with names data inputs
  = IO (printed (build data names)
        ++ Coefficients coeff :: Banner :: printed (serve coeff names inputs)
        ++ match outcome (serve coeff names inputs) with
           | Ok _ => [Finished]
           | Raise _ => []
           end)
       (outcome (serve coeff names inputs)).
Proof.
  intros Hb. unfold main_with. rewrite (bind_ok _ _ _ Hb).
  rewrite !bind_print. cbn [outcome printed].
  destruct (outcome (serve coeff names inputs)) as [[]|e] eqn:Hs.
  - by rewrite (bind_ok _ _ _ Hs).
  - unfold mbind at 1, io_bind. rewrite Hs. cbn [outcome printed].
    by rewrite (bind_outcome_raise _ _ _ Hs), app_nil_r.
Qed.

Lemma main_output_shape_witness :
  main sample_decay [Malformed; Blank]
  = IO [MissingColumn "RX"; MissingColumn "TX"; MissingColumn "Read";
        MissingColumn "Write"; Coefficients {["cpu load" := (2, -1)]};
        Banner; BadNumber; Finished]
       (Ok ()).
Proof.
  unfold main.
  rewrite (main_output_shape sample_decay targets {["cpu load" := (2, -1)]})
    by (by rewrite build_sample_decay).
  by rewrite build_sample_decay.
Defined.

(** ** The unit suffix (lines 99-104) *)

Section suffixes.
Implicit Types p s : string.

(** [starts_with] and [contains] are the prefix and substring tests. *)
Lemma starts_with_spec p s :
  starts_with p s = true ↔ ∃ post, s = String.append p post.
Proof.
  revert s. induction p as [|a p IH]; intros s.
  - split; [intros _; by exists s | done].
  - destruct s as [|b s]; cbn [starts_with].
    + split; [done | intros [post Hpost]; done].
    + rewrite andb_true_iff, bool_decide_eq_true, IH. split.
      * intros [-> [post ->]]. by exists post.
      * intros [post Hpost]. cbn in Hpost. injection Hpost as -> ->.
        split; [done | by exists post].
Qed.

Lemma contains_spec p s :
  contains p s = true
  ↔ ∃ pre post, s = String.append pre (String.append p post).
Proof.
  induction s as [|b s IH].
  - cbn [contains]. rewrite orb_false_r, starts_with_spec. split.
    + intros [post Hpost]. by exists EmptyString, post.
    + intros (pre & post & Hs). destruct pre; [by exists post | done].
  - cbn [contains]. rewrite orb_true_iff, starts_with_spec, IH. split.
    + intros [[post Hpost]|(pre & post & ->)].
      * by exists EmptyString, post.
      * by exists (String b pre), post.
    + intros (pre & post & Hs). destruct pre as [|c pre].
      * left. by exists post.
      * right. cbn in Hs. injection Hs as -> ->. by exists pre, post.
Qed.

Lemma starts_with_lower p s :
  starts_with p s = true → starts_with (lower p) (lower s) = true.
Proof.
  revert s. induction p as [|a p IH]; intros [|b s]; cbn; try done.
  rewrite !andb_true_iff, !bool_decide_eq_true.
  intros [-> Hrest]. split; [done | by apply IH].
Qed.

(** A text found in a name is found, lower-cased, in the lower-cased
    name. *)
Lemma contains_lower p s :
  contains p s = true → contains (lower p) (lower s) = true.
Proof.
  induction s as [|b s IH]; cbn [contains lower].
  - rewrite !orb_false_r. apply (starts_with_lower p EmptyString).
  - rewrite !orb_true_iff. intros [Hs|Hc].
    + left. apply (starts_with_lower p (String b s) Hs).
    + right. by apply IH.
Qed.
End suffixes.

(** X19.  The unit is chosen without regard to letter case, and CPU
    comes first: a column whose name contains "cpu" in any spelling is
    printed with the CPU suffix, whatever else its name contains. *)
Theorem suffix_cpu_any_spelling (pattern name : string) :
  lower pattern = "cpu" → contains pattern name = true →
  suffix_of (lower name) = " CPU".
Proof.
  intros Hp Hc. apply contains_lower in Hc. rewrite Hp in Hc.
  unfold suffix_of. by rewrite Hc.
Qed.

Lemma suffix_cpu_any_spelling_witness :
  suffix_of (lower "Disk Read per Cpu") = " CPU".
Proof.
  apply (suffix_cpu_any_spelling "Cpu" "Disk Read per Cpu"); reflexivity.
Defined.

(** X20.  A column whose name contains "read", "write", "rx" or "tx" in
    any spelling, and "cpu" in none, is printed with the throughput
    suffix. *)
Theorem suffix_throughput_any_spelling (pattern name : string) :
  lower pattern ∈ ["read"; "write"; "rx"; "tx"] →
  contains pattern name = true →
  contains "cpu" (lower name) = false →
  suffix_of (lower name) = " MB/s".
Proof.
  intros Hp Hc Hcpu. apply contains_lower in Hc.
  unfold suffix_of. rewrite Hcpu.
  repeat (apply elem_of_cons in Hp as [Hp|Hp]); try (by apply elem_of_nil in Hp);
    rewrite Hp in Hc; rewrite Hc; by rewrite ?orb_true_r.
Qed.

Lemma suffix_throughput_any_spelling_witness :
  suffix_of (lower "Net TX") = " MB/s".
Proof.
  apply (suffix_throughput_any_spelling "TX" "Net TX").
  - repeat constructor.
  - reflexivity.
  - reflexivity.
Defined.

(** ** [read_csv]: the insertion-ordered row dict *)

Section dicts.
Context {V : Type}.
Implicit Types (d : list (string * V)) (k : string) (v : V).

(** [dict_set] is [insert] on the map the dict stands for. *)
Lemma dict_set_to_map k v d :
  (list_to_map (dict_set k v d) : gmap string V) = <[k := v]> (list_to_map d).
Proof.
  induction d as [|[k' v'] d IH]; [done |].
  cbn [dict_set]. destruct (decide (k' = k)) as [->|Hne].
  - cbn [list_to_map foldr uncurry]. by rewrite insert_insert_eq.
  - cbn [list_to_map foldr uncurry].
    change (foldr (λ kv, uncurry insert kv) ∅ (dict_set k v d))
      with (list_to_map (dict_set k v d) : gmap string V).
    rewrite IH. by apply insert_insert_ne.
Qed.

Lemma dict_set_keys k v d k' :
  k' ∈ (dict_set k v d).*1 ↔ k' = k ∨ k' ∈ d.*1.
Proof.
  induction d as [|[k0 v0] d IH].
  - cbn. rewrite list_elem_of_singleton, elem_of_nil. tauto.
  - cbn [dict_set]. destruct (decide (k0 = k)) as [->|Hne].
    + rewrite !fmap_cons, !elem_of_cons. cbn. tauto.
    + rewrite !fmap_cons, !elem_of_cons, IH. cbn. tauto.
Qed.

(** A dict never holds a key twice. *)
Lemma dict_set_NoDup k v d : NoDup d.*1 → NoDup (dict_set k v d).*1.
Proof.
  induction d as [|[k0 v0] d IH]; intros Hd.
  - cbn. apply NoDup_singleton.
  - cbn [dict_set]. rewrite fmap_cons in Hd. apply NoDup_cons in Hd as [Hk0 Hd].
    destruct (decide (k0 = k)) as [->|Hne].
    + rewrite fmap_cons. by apply NoDup_cons.
    + rewrite fmap_cons. apply NoDup_cons. split; [| by apply IH].
      rewrite dict_set_keys. cbn. intros [?|?]; [congruence | done].
Qed.

Lemma foldl_dict_set_NoDup {A} (key : A → string) (val : A → V) (l : list A) d :
  NoDup d.*1 → NoDup (foldl (λ d a, dict_set (key a) (val a) d) d l).*1.
Proof.
  revert d. induction l as [|a l IH]; intros d Hd; [done |].
  cbn [foldl]. apply IH. by apply dict_set_NoDup.
Qed.

Lemma foldl_dict_set_keys {A} (key : A → string) (val : A → V) (l : list A) d k :
  k ∈ (foldl (λ d a, dict_set (key a) (val a) d) d l).*1
  ↔ k ∈ d.*1 ∨ k ∈ key <$> l.
Proof.
  revert d. induction l as [|a l IH]; intros d.
  - cbn. rewrite elem_of_nil. tauto.
  - cbn [foldl]. rewrite IH, dict_set_keys, fmap_cons, elem_of_cons. tauto.
Qed.

Lemma foldl_dict_set_to_map {A} (key : A → string) (val : A → V) (l : list A) d :
  (list_to_map (foldl (λ d a, dict_set (key a) (val a) d) d l) : gmap string V)
  = foldl (λ m a, <[key a := val a]> m) (list_to_map d) l.
Proof.
  revert d. induction l as [|a l IH]; intros d; [done |].
  cbn [foldl]. by rewrite IH, dict_set_to_map.
Qed.

Lemma foldl_insert_fresh {A} (key : A → string) (val : A → V) (l : list A)
    (m : gmap string V) k :
  k ∉ key <$> l →
  foldl (λ m a, <[key a := val a]> m) m l !! k = m !! k.
Proof.
  revert m. induction l as [|a l IH]; intros m Hk; [done |].
  rewrite fmap_cons in Hk. apply not_elem_of_cons in Hk as [Hne Hk].
  cbn [foldl]. rewrite (IH _ Hk). by apply lookup_insert_ne.
Qed.

Lemma foldl_insert_member {A} (key : A → string) (val : A → V) (l : list A)
    (m : gmap string V) a :
  NoDup (key <$> l) → a ∈ l →
  foldl (λ m a, <[key a := val a]> m) m l !! key a = Some (val a).
Proof.
  revert m. induction l as [|b l IH]; intros m Hnd Ha.
  - by apply elem_of_nil in Ha.
  - rewrite fmap_cons in Hnd. apply NoDup_cons in Hnd as [Hb Hnd].
    cbn [foldl]. apply elem_of_cons in Ha as [->|Ha].
    + rewrite (foldl_insert_fresh key val l _ (key b) Hb).
      apply lookup_insert_eq.
    + by apply IH.
Qed.
End dicts.

(** ** [read_csv]: rows and columns *)

Section reading.
Context (float_ : string → option R).
Implicit Types (fieldnames row : list string) (rows : list (list string))
  (columns : gmap string (list R)).

Lemma zip_keys fieldnames row :
  (zip fieldnames row).*1 = take (length row) fieldnames.
Proof.
  revert row. induction fieldnames as [|f fieldnames IH]; intros [|c row];
    cbn; try done.
  by rewrite IH.
Qed.

Lemma row_dict_NoDup fieldnames row : NoDup (row_dict fieldnames row).*1.
Proof.
  unfold row_dict.
  apply (foldl_dict_set_NoDup (λ key, key) (λ _, None)).
  apply (foldl_dict_set_NoDup fst (λ kc, Some kc.2)). constructor.
Qed.

(** The keys of a row dict are the field names. *)
Lemma row_dict_keys fieldnames row name :
  name ∈ (row_dict fieldnames row).*1 ↔ name ∈ fieldnames.
Proof.
  unfold row_dict.
  rewrite (foldl_dict_set_keys (λ key, key) (λ _, None)).
  rewrite (foldl_dict_set_keys fst (λ kc, Some kc.2)).
  rewrite zip_keys, list_fmap_id.
  rewrite <- (take_drop (length row) fieldnames) at 3.
  rewrite elem_of_app. cbn. rewrite elem_of_nil. tauto.
Qed.

(** With distinct field names the value under the [i]-th name is the
    [i]-th cell of the record, or [None] when the record is too short. *)
Lemma row_dict_lookup fieldnames row i name :
  NoDup fieldnames → fieldnames !! i = Some name →
  (list_to_map (row_dict fieldnames row) : gmap string (option string)) !! name
  = Some (row !! i).
Proof.
  intros Hnd Hi. unfold row_dict.
  rewrite (foldl_dict_set_to_map (λ key, key) (λ _, None)).
  rewrite (foldl_dict_set_to_map fst (λ kc, Some kc.2)).
  assert (NoDup (take (length row) fieldnames) ∧ NoDup (drop (length row) fieldnames)
          ∧ ∀ k, k ∈ take (length row) fieldnames
                 → k ∉ drop (length row) fieldnames) as (Ht & Hd & Hdisj).
  { rewrite <- (take_drop (length row) fieldnames) in Hnd.
    apply NoDup_app in Hnd as (? & ? & ?). auto. }
  destruct (decide (i < length row)%nat) as [Hlt|Hge].
  - destruct (lookup_lt_is_Some_2 row i Hlt) as [c Hc]. rewrite Hc.
    assert ((name, c) ∈ zip fieldnames row) as Hin.
    { apply list_elem_of_lookup. exists i. by apply lookup_zip_Some. }
    rewrite (foldl_insert_fresh (λ key, key) (λ _, None)).
    + apply (foldl_insert_member fst (λ kc, Some kc.2) _ _ (name, c));
        [by rewrite zip_keys | done].
    + rewrite list_fmap_id. apply Hdisj.
      apply list_elem_of_lookup. exists i. rewrite lookup_take_lt; done.
  - rewrite (lookup_ge_None_2 row i) by lia.
    apply (foldl_insert_member (λ key, key) (λ _, None) _ _ name).
    + by rewrite list_fmap_id.
    + apply list_elem_of_lookup. exists (i - length row)%nat.
      rewrite lookup_drop. rewrite <- Hi. f_equal. lia.
Qed.

(** One row dict appends one value to the column of each of its keys
    and leaves the other columns alone. *)
Lemma append_row_lookup columns (d : list (string * option string)) name :
  NoDup d.*1 →
  append_row float_ columns d !! name
  = match (list_to_map d : gmap string (option string)) !! name with
    | Some value => (λ col, col ++ [coerce float_ value]) <$> columns !! name
    | None => columns !! name
    end.
Proof.
  unfold append_row. revert columns.
  induction d as [|[k v] d IH]; intros columns Hnd; [done |].
  rewrite fmap_cons in Hnd. apply NoDup_cons in Hnd as [Hk Hnd].
  cbn [foldl fst snd]. rewrite (IH _ Hnd).
  cbn [list_to_map foldr uncurry].
  change (foldr (λ kv, uncurry insert kv) ∅ d)
    with (list_to_map d : gmap string (option string)).
  destruct (decide (k = name)) as [->|Hne].
  - rewrite lookup_insert_eq.
    rewrite (not_elem_of_list_to_map_1 d name Hk).
    by rewrite lookup_alter_eq.
  - rewrite lookup_insert_ne by done.
    by rewrite lookup_alter_ne by done.
Qed.

Lemma append_row_column fieldnames row columns name col :
  name ∈ fieldnames → columns !! name = Some col →
  ∃ value, append_row float_ columns (row_dict fieldnames row) !! name
           = Some (col ++ [coerce float_ value]).
Proof.
  intros Hin Hcol.
  rewrite (append_row_lookup _ _ _ (row_dict_NoDup fieldnames row)).
  apply (row_dict_keys fieldnames row) in Hin.
  destruct (list_to_map (row_dict fieldnames row) !! name) as [value|] eqn:Hv.
  - exists value. by rewrite Hcol.
  - by apply not_elem_of_list_to_map in Hv.
Qed.

Lemma append_row_other fieldnames row columns name :
  columns !! name = None →
  append_row float_ columns (row_dict fieldnames row) !! name = None.
Proof.
  intros Hcol.
  rewrite (append_row_lookup _ _ _ (row_dict_NoDup fieldnames row)), Hcol.
  by destruct (list_to_map (row_dict fieldnames row) !! name).
Qed.

Lemma data_rows_cons_blank rows : data_rows ([] :: rows) = data_rows rows.
Proof. unfold data_rows. by rewrite filter_cons_False by (by intros ?). Qed.

Lemma data_rows_cons row rows :
  row ≠ [] → data_rows (row :: rows) = row :: data_rows rows.
Proof. intros H. unfold data_rows. by rewrite filter_cons_True. Qed.

(** The loop over the records keeps the keys and adds one value per
    non-empty record to every column. *)
Lemma read_rows_rectangular fieldnames rows columns n :
  Forall (λ row, length row ≤ length fieldnames)%nat rows →
  (∀ name, is_Some (columns !! name) ↔ name ∈ fieldnames) →
  (∀ name col, columns !! name = Some col → length col = n) →
  ∃ columns', read_rows float_ fieldnames rows columns = Table columns'
    ∧ (∀ name, is_Some (columns' !! name) ↔ name ∈ fieldnames)
    ∧ (∀ name col, columns' !! name = Some col
                   → length col = (n + length (data_rows rows))%nat).
Proof.
  intros Hrows. revert columns n.
  induction Hrows as [|row rows Hrow _ IH]; intros columns n Hkeys Hlen.
  - exists columns. cbn. split; [done | split; [done |]].
    intros name col Hc. rewrite (Hlen name col Hc). lia.
  - cbn [read_rows]. destruct (decide (row = [])) as [->|Hne].
    + rewrite data_rows_cons_blank. by apply IH.
    + rewrite decide_False by lia. rewrite (data_rows_cons _ _ Hne).
      destruct (IH (append_row float_ columns (row_dict fieldnames row)) (S n))
        as (columns' & Hread & Hkeys' & Hlen').
      * intros name. rewrite <- Hkeys. split.
        -- intros [col Hc].
           destruct (columns !! name) as [col0|] eqn:Hc0; [by eexists |].
           by rewrite (append_row_other _ _ _ _ Hc0) in Hc.
        -- intros [col Hc].
           destruct (append_row_column fieldnames row columns name col)
             as [value Hv]; [by apply Hkeys; eexists | done |].
           by eexists.
      * intros name col Hc.
        destruct (columns !! name) as [col0|] eqn:Hc0.
        -- destruct (append_row_column fieldnames row columns name col0)
             as [value Hv]; [by apply Hkeys; eexists | done |].
           rewrite Hv in Hc. injection Hc as <-.
           rewrite length_app, (Hlen name col0 Hc0). cbn. lia.
        -- by rewrite (append_row_other _ _ _ _ Hc0) in Hc.
      * exists columns'. split; [done | split; [done |]].
        intros name col Hc. rewrite (Hlen' name col Hc). cbn [length]. lia.
Qed.

Lemma initial_columns_lookup fieldnames name :
  (list_to_map ((λ name, (name, [])) <$> fieldnames) : gmap string (list R))
    !! name
  = if decide (name ∈ fieldnames) then Some [] else None.
Proof.
  destruct (decide (name ∈ fieldnames)) as [Hin|Hin].
  - destruct (list_to_map _ !! name) as [col|] eqn:Hc.
    + apply elem_of_list_to_map_2 in Hc.
      apply list_elem_of_fmap in Hc as (? & Heq & _). by injection Heq as _ ->.
    + apply not_elem_of_list_to_map in Hc. exfalso. apply Hc.
      rewrite <- list_fmap_compose. cbn. by rewrite list_fmap_id.
  - apply not_elem_of_list_to_map.
    rewrite <- list_fmap_compose. cbn. by rewrite list_fmap_id.
Qed.
End reading.

Section reading_more.
Context (float_ : string → option R).
Implicit Types (fieldnames row : list string) (rows : list (list string))
  (columns : gmap string (list R)).

Lemma read_rows_column fieldnames rows columns i name acc :
  NoDup fieldnames → fieldnames !! i = Some name →
  Forall (λ row, length row ≤ length fieldnames)%nat rows →
  columns !! name = Some acc →
  ∃ columns', read_rows float_ fieldnames rows columns = Table columns'
    ∧ columns' !! name
      = Some (acc ++ ((λ row, coerce float_ (row !! i)) <$> data_rows rows)).
Proof.
  intros Hnd Hi Hrows. revert columns acc.
  induction Hrows as [|row rows Hrow _ IH]; intros columns acc Hacc.
  - exists columns. cbn. by rewrite app_nil_r.
  - cbn [read_rows]. destruct (decide (row = [])) as [->|Hne].
    + rewrite data_rows_cons_blank. by apply IH.
    + rewrite decide_False by lia. rewrite (data_rows_cons _ _ Hne).
      rewrite fmap_cons, cons_middle, app_assoc. apply IH.
      rewrite (append_row_lookup _ _ _ _ (row_dict_NoDup fieldnames row)).
      by rewrite (row_dict_lookup fieldnames row i name Hnd Hi), Hacc.
Qed.

Lemma read_rows_long_record fieldnames rows1 row rows2 columns :
  Forall (λ row, length row ≤ length fieldnames)%nat rows1 →
  (length fieldnames < length row)%nat →
  read_rows float_ fieldnames (rows1 ++ row :: rows2) columns = ExtraCells.
Proof.
  intros Hrows Hlong. revert columns.
  induction Hrows as [|r rows1 Hr _ IH]; intros columns.
  - cbn [app read_rows].
    rewrite decide_False by (intros ->; cbn in Hlong; lia).
    by rewrite decide_True.
  - rewrite <- app_comm_cons. cbn [read_rows].
    destruct (decide (r = [])); [apply IH |].
    rewrite decide_False by lia. apply IH.
Qed.

Lemma read_rows_table_inv fieldnames rows columns columns' :
  read_rows float_ fieldnames rows columns = Table columns' →
  Forall (λ row, length row ≤ length fieldnames)%nat rows.
Proof.
  revert columns. induction rows as [|row rows IH]; intros columns H;
    [constructor |].
  cbn [read_rows] in H. destruct (decide (row = [])) as [->|Hne].
  - constructor; [cbn; lia | by apply (IH columns)].
  - destruct (decide (length fieldnames < length row)%nat); [done |].
    constructor; [lia | by apply (IH _ H)].
Qed.

Lemma polyfit1_outcomes (u w : list R) :
  is_Ok (np.polyfit1 u w)
  ∨ np.polyfit1 u w = Raise TypeError ∨ np.polyfit1 u w = Raise LinAlgError.
Proof.
  unfold np.polyfit1. destruct u; [by right; left |].
  repeat case_decide;
    first [ left; eexists; reflexivity
          | right; left; reflexivity | right; right; reflexivity ].
Qed.
End reading_more.

Lemma read_csv_is_rectangular_aux (float_ : string → option R)
    (fieldnames : list string) (rows : list (list string)) :
  Forall (λ row, length row ≤ length fieldnames)%nat rows →
  ∃ columns, read_csv float_ (fieldnames :: rows) = Table columns
    ∧ (∀ name, is_Some (columns !! name) ↔ name ∈ fieldnames)
    ∧ (∀ name col, columns !! name = Some col
                   → length col = length (data_rows rows)).
Proof.
  intros Hrows. cbn [read_csv].
  apply (read_rows_rectangular float_ fieldnames rows _ 0 Hrows).
  - intros name. rewrite initial_columns_lookup.
    case_decide as Hin.
    + split; [done | intros _; by eexists].
    + split; [by intros [? ?] | done].
  - intros name col. rewrite initial_columns_lookup.
    case_decide; [| done]. by intros [= <-].
Qed.

(** X21.  [read_csv] never fails on what the cells contain: as long as
    no record is longer than the header, whatever [float] accepts, it
    returns a table whose keys are the header names and whose columns all
    have one entry per non-empty record. *)
Theorem read_csv_is_rectangular (float_ : string → option R)
    (fieldnames : list string) (rows : list (list string)) :
  Forall (λ row, length row ≤ length fieldnames)%nat rows →
  ∃ columns, read_csv float_ (fieldnames :: rows) = Table columns
    ∧ (∀ name, is_Some (columns !! name) ↔ name ∈ fieldnames)
    ∧ (∀ name col, columns !! name = Some col
                   → length col = length (data_rows rows)).
Proof. apply read_csv_is_rectangular_aux. Qed.

Lemma read_csv_is_rectangular_witness :
  ∃ columns,
    read_csv float_sample (["load"; "RX"; "load"] :: [["1,5"; "x"]; []; ["7"]])
    = Table columns
    ∧ (∀ name, is_Some (columns !! name) ↔ name ∈ ["load"; "RX"; "load"])
    ∧ (∀ name col, columns !! name = Some col → length col = 2%nat).
Proof.
  apply (read_csv_is_rectangular float_sample ["load"; "RX"; "load"]
           [["1,5"; "x"]; []; ["7"]]).
  repeat constructor; cbn; lia.
Defined.

(** X22.  What the table holds: with distinct header names and no
    record longer than the header, the column of the [i]-th name holds,
    for each non-empty record in order, the number [float] reads from its
    [i]-th cell after turning commas into points, and 0 where [float]
    rejects the text or the record has no [i]-th cell. *)
Theorem read_csv_column (float_ : string → option R)
    (fieldnames : list string) (rows : list (list string)) (i : nat)
    (name : string) :
  NoDup fieldnames → fieldnames !! i = Some name →
  Forall (λ row, length row ≤ length fieldnames)%nat rows →
  ∃ columns, read_csv float_ (fieldnames :: rows) = Table columns
    ∧ columns !! name
      = Some ((λ row, coerce float_ (row !! i)) <$> data_rows rows).
Proof.
  intros Hnd Hi Hrows. cbn [read_csv].
  apply (read_rows_column float_ fieldnames rows _ i name [] Hnd Hi Hrows).
  rewrite initial_columns_lookup, decide_True; [done |].
  apply list_elem_of_lookup. by exists i.
Qed.

Lemma read_csv_column_witness :
  ∃ columns,
    read_csv float_sample (["load"; "RX"] :: [["1,5"; "x"]; []; ["1.5"]])
    = Table columns
    ∧ columns !! "RX" = Some [0; 0] ∧ columns !! "load" = Some [3 / 2; 3 / 2].
Proof.
  destruct (read_csv_column float_sample ["load"; "RX"]
              [["1,5"; "x"]; []; ["1.5"]] 1 "RX") as (columns & Hread & Hrx).
  - apply NoDup_cons. split; [| apply NoDup_singleton].
    by intros [=]%list_elem_of_singleton.
  - reflexivity.
  - repeat constructor; cbn; lia.
  - destruct (read_csv_column float_sample ["load"; "RX"]
                [["1,5"; "x"]; []; ["1.5"]] 0 "load") as (columns' & Hread' & Hload).
    + apply NoDup_cons. split; [| apply NoDup_singleton].
      by intros [=]%list_elem_of_singleton.
    + reflexivity.
    + repeat constructor; cbn; lia.
    + rewrite Hread in Hread'. injection Hread' as <-.
      exists columns. split; [done |]. split; [exact Hrx | exact Hload].
Defined.

(** X23.  A record with more cells than the header is fatal: the first
    such record makes [read_csv] raise (the KeyError of the key [None]),
    whatever the records before it contain and whatever follows. *)
Theorem read_csv_long_record_raises (float_ : string → option R)
    (fieldnames : list string) (rows1 : list (list string))
    (row : list string) (rows2 : list (list string)) :
  Forall (λ row, length row ≤ length fieldnames)%nat rows1 →
  (length fieldnames < length row)%nat →
  read_csv float_ (fieldnames :: rows1 ++ row :: rows2) = ExtraCells.
Proof. intros Hrows Hlong. by apply read_rows_long_record. Qed.

Lemma read_csv_long_record_raises_witness :
  read_csv float_sample (["load"; "RX"] :: [["1"; "2"]] ++ ["1"; "2"; "3"] :: [])
  = ExtraCells.
Proof.
  apply (read_csv_long_record_raises float_sample ["load"; "RX"] [["1"; "2"]]
           ["1"; "2"; "3"] []).
  - repeat constructor.
  - cbn. lia.
Defined.

(** X24.  The columns of a table that [read_csv] returned are parallel
    arrays, so fitting one against another never fails on their shape:
    [power_law_fit] returns, or raises one of the two errors of
    [np.polyfit]. *)
Theorem table_columns_are_parallel (float_ : string → option R)
    (records : list (list string)) (data : gmap string (list R))
    (n1 n2 : string) (x y : list R) :
  read_csv float_ records = Table data →
  data !! n1 = Some x → data !! n2 = Some y →
  length x = length y
  ∧ (is_Ok (power_law_fit x y)
     ∨ power_law_fit x y = Raise TypeError
     ∨ power_law_fit x y = Raise LinAlgError).
Proof.
  intros Hread Hx Hy. destruct records as [|fieldnames rows]; [done |].
  pose proof Hread as Hrows. cbn [read_csv] in Hrows.
  apply read_rows_table_inv in Hrows.
  destruct (read_csv_is_rectangular_aux float_ fieldnames rows Hrows)
    as (columns & Hread' & _ & Hlen).
  rewrite Hread in Hread'. injection Hread' as <-.
  assert (length x = length y) as Hxy
    by (by rewrite (Hlen n1 x Hx), (Hlen n2 y Hy)).
  split; [done |]. rewrite (power_law_fit_eq x y Hxy).
  destruct (polyfit1_outcomes (np.log (positive_x x y)) (np.log (positive_y x y)))
    as [ [ [s i] Hp ] | [ Hp | Hp ] ]; rewrite Hp.
  - left. by eexists.
  - right. by left.
  - right. by right.
Qed.

Lemma table_columns_are_parallel_witness :
  length [3 / 2; 3 / 2] = length [0; 0]
  ∧ (is_Ok (power_law_fit [3 / 2; 3 / 2] [0; 0])
     ∨ power_law_fit [3 / 2; 3 / 2] [0; 0] = Raise TypeError
     ∨ power_law_fit [3 / 2; 3 / 2] [0; 0] = Raise LinAlgError).
Proof.
  apply (table_columns_are_parallel float_sample
           (["load"; "RX"] :: [["1,5"; "x"]; []; ["1.5"]])
           (<["RX" := [0; 0]]> {["load" := [3 / 2; 3 / 2]]}) "load" "RX").
  - reflexivity.
  - reflexivity.
  - reflexivity.
Defined.

(** ** [calc] as a function of the load *)

(** X25.  Load zero with an exponent that is not negative: [calc]
    returns, the coefficient [a] itself when [b = 0] (since
    [math.pow(0, 0)] is 1) and 0 when [b > 0]. *)
Theorem calc_at_zero_returns (coeff : gmap string (R * R)) (key : string)
    (a b : R) :
  coeff !! key = Some (a, b) → 0 <= b →
  calc coeff key 0 = Ok (if decide (b = 0) then a else 0).
Proof.
  intros Hk Hb. rewrite (calc_entry _ _ _ _ _ Hk). unfold math_pow.
  destruct (decide (b = 0)) as [->|Hne].
  - cbn. f_equal. lra.
  - rewrite decide_False by lra. rewrite decide_True by done.
    rewrite decide_True by lra. cbn. f_equal. lra.
Qed.

Lemma calc_at_zero_returns_witness :
  calc {["cpu load" := (2, 1)]} "cpu load" 0 = Ok 0
  ∧ calc {["rx" := (5, 0)]} "rx" 0 = Ok 5.
Proof.
  split.
  - rewrite (calc_at_zero_returns {["cpu load" := (2, 1)]} "cpu load" 2 1);
      [| reflexivity | lra].
    by rewrite decide_False by lra.
  - rewrite (calc_at_zero_returns {["rx" := (5, 0)]} "rx" 5 0);
      [| reflexivity | lra].
    by rewrite decide_True by lra.
Defined.

(** What [math.pow] makes of a power does not decrease with the power:
    if the larger of two positive powers is returned, so is the smaller,
    and as a smaller number. *)
Lemma math_range_monotone (p1 p2 v2 : R) :
  0 < p1 → p1 <= p2 → math_range p2 = Ok v2 →
  ∃ v1, math_range p1 = Ok v1 ∧ 0 <= v1 <= v2.
Proof.
  intros H1 H12 H2. unfold math_range in *.
  rewrite (Rabs_pos_eq p1), (Rabs_pos_eq p2) in * by lra.
  destruct (decide (round_to_inf <= p2)) as [|Hhi]; [done |].
  rewrite decide_False by lra.
  destruct (decide (p1 <= round_to_zero)) as [Hlo1|Hlo1].
  - exists 0. split; [done |].
    destruct (decide (p2 <= round_to_zero)); injection H2 as <-; lra.
  - exists p1. split; [done |].
    rewrite decide_False in H2 by lra. injection H2 as <-. lra.
Qed.

Lemma calc_monotone_aux (coeff : gmap string (R * R)) (key : string)
    (a b x1 x2 y : R) :
  coeff !! key = Some (a, b) → 0 < a → b ≠ 0 → 0 < x1 → 0 < x2 →
  Rpower x1 b <= Rpower x2 b →
  calc coeff key x2 = Ok y →
  ∃ y1, calc coeff key x1 = Ok y1 ∧ 0 <= y1 <= y.
Proof.
  intros Hk Ha Hb H1 H2 Hle Hy.
  rewrite (calc_entry _ _ _ _ x2 Hk) in Hy. rewrite (calc_entry _ _ _ _ x1 Hk).
  unfold math_pow in *.
  rewrite (decide_False (P := b = 0)) in Hy |- * by done.
  rewrite (decide_True (P := 0 < x2)) in Hy by done.
  rewrite (decide_True (P := 0 < x1)) by done.
  destruct (math_range (Rpower x2 b)) as [v2|] eqn:Hv2; [| done].
  destruct (math_range_monotone _ _ v2 (Rpower_pos x1 b) Hle Hv2)
    as (v1 & -> & Hv1).
  cbn in Hy |- *. injection Hy as <-. exists (a * v1). split; [done |].
  split; [apply Rmult_le_pos; lra | apply Rmult_le_compat_l; lra].
Qed.

(** X26.  The direction of a prediction follows the sign of the
    exponent.  For an entry with [a > 0] and [b > 0], a prediction that
    is returned at a load is returned at every smaller positive load, and
    is not larger there: the OverflowError of [math.pow] can only set in
    from some load on.  For [b < 0] the same holds towards the larger
    loads. *)
Theorem calc_is_monotone (coeff : gmap string (R * R)) (key : string)
    (a b x1 x2 y : R) :
  coeff !! key = Some (a, b) → 0 < a → 0 < x1 → x1 <= x2 →
  (0 < b → calc coeff key x2 = Ok y →
     ∃ y1, calc coeff key x1 = Ok y1 ∧ 0 <= y1 <= y)
  ∧ (b < 0 → calc coeff key x1 = Ok y →
     ∃ y2, calc coeff key x2 = Ok y2 ∧ 0 <= y2 <= y).
Proof.
  intros Hk Ha Hx1 Hle.
  assert (ln x1 <= ln x2) as Hln.
  { destruct Hle as [Hlt| ->]; [left; by apply ln_increasing | lra]. }
  split; intros Hb Hy.
  - apply (calc_monotone_aux coeff key a b x1 x2 y); try done; try lra.
    unfold Rpower. destruct (Rmult_le_compat_l b _ _ (Rlt_le _ _ Hb) Hln)
      as [Hlt|Heq]; [left; by apply exp_increasing | rewrite Heq; lra].
  - apply (calc_monotone_aux coeff key a b x2 x1 y); try done; try lra.
    unfold Rpower. assert (b * ln x2 <= b * ln x1) as [Hlt|Heq] by nra;
      [left; by apply exp_increasing | rewrite Heq; lra].
Qed.

Lemma calc_is_monotone_witness :
  ∃ y2, calc {["cpu load" := (2, -1)]} "cpu load" 4 = Ok y2
        ∧ 0 <= y2 <= 2 * Rpower 1 (-1).
Proof.
  assert (calc {["cpu load" := (2, -1)]} "cpu load" 1 = Ok (2 * Rpower 1 (-1)))
    as Hc.
  { rewrite (calc_entry _ _ 2 (-1) 1) by reflexivity.
    assert (Rpower 1 (-1) = 1) as E.
    { unfold Rpower. rewrite ln_1, Rmult_0_r. apply exp_0. }
    by rewrite math_pow_moderate by (rewrite ?E; lra). }
  destruct (calc_is_monotone {["cpu load" := (2, -1)]} "cpu load" 2 (-1) 1 4
              (2 * Rpower 1 (-1))) as [_ Hdec].
  - reflexivity.
  - lra.
  - lra.
  - lra.
  - apply Hdec; [lra | exact Hc].
Defined.
